(** * Trello client: resilient execution, board resolution, rate admission

    A shallow embedding of [src/trello-client.ts] (class [TrelloClient]).
    Promises are modelled by their settlement ([Fulfilled] / [Rejected]),
    asynchronous methods by explicit passing of the world they act on
    (upstream service, rate limiter, file system, event trace), and the
    unbounded recursion of [handleRequest] by a fuel-indexed function
    together with a big-step relation that holds exactly when the call
    settles.  JavaScript numbers are IEEE 754 doubles ([spec_float]).  The
    rate limiter itself lives in a module that is not among the sources
    and is modelled from the specification.

    Definitions come first, their properties after them. *)

From Stdlib Require Import ZArith List Sorted String Ascii Bool Lia.
From Stdlib Require Import DecimalString SpecFloat.
Import ListNotations.

Local Open Scope string_scope.
Local Open Scope Z_scope.
Local Set Warnings "-register-all".

(** ** JavaScript values used by the client *)

Module Js.

(** JSON payloads ([response.data], request bodies). *)
Inductive Json : Type :=
| JNull
| JBool (b : bool)
| JNum (n : Z)
| JStr (s : string)
| JArr (items : list Json)
| JObj (fields : list (string * Json)).

(** A value of type [string | undefined]. *)
Definition optstring := option string.

(** Truthiness of a [string | undefined]: [undefined] and the empty
    string are falsy. *)
Definition truthy (x : optstring) : bool :=
  match x with
  | Some s => negb (String.eqb s "")
  | None => false
  end.

(** [a || b] on [string | undefined]. *)
Definition or_else (a b : optstring) : optstring :=
  if truthy a then a else b.

(** Decimal rendering of an integral number, as a template literal does. *)
Definition Number_toString (z : Z) : string :=
  NilZero.string_of_int (Z.to_int z).

(** [`${x}`] for [x : number | undefined]. *)
Definition template_number (x : option Z) : string :=
  match x with
  | Some z => Number_toString z
  | None => "undefined"
  end.

(** [String.prototype.includes]. *)
Fixpoint includes (needle hay : string) : bool :=
  if String.prefix needle hay then true
  else match hay with
       | EmptyString => false
       | String _ rest => includes needle rest
       end.

End Js.
Import Js.

(** ** Errors and promise settlement *)

(** The members of the SDK's [ErrorCode] that the client uses. *)
Inductive ErrorCode : Type := InvalidRequest | InvalidParams | InternalError.

(** [new McpError(code, message, data)]: the constructor's arguments. *)
Record McpError : Type := mkMcpError {
  code : ErrorCode;
  message : string;
  data : option Json
}.

(** The part of an axios response the client reads. *)
Record AxiosResponse : Type := mkResponse {
  status : Z;
  response_data : Json
}.

(** What a request function can throw.  [AxiosError] is the only case on
    which [axios.isAxiosError] answers [true]; its [response] is absent on a
    transport fault. *)
Inductive Thrown : Type :=
| AxiosError (error_message : string) (response : option AxiosResponse)
| ThrownMcp (e : McpError)
| JsError (error_message : string).

Definition isAxiosError (error : Thrown) : bool :=
  match error with
  | AxiosError _ _ => true
  | _ => false
  end.

(** [error.response?.status] *)
Definition response_status (error : Thrown) : option Z :=
  match error with
  | AxiosError _ (Some r) => Some (status r)
  | _ => None
  end.

(** [error.response?.data] *)
Definition response_body (error : Thrown) : option Json :=
  match error with
  | AxiosError _ (Some r) => Some (response_data r)
  | _ => None
  end.

(** [error.message] *)
Definition thrown_message (error : Thrown) : string :=
  match error with
  | AxiosError m _ => m
  | ThrownMcp e => message e
  | JsError m => m
  end.

(** A settled promise. *)
Inductive Settled (T : Type) : Type :=
| Fulfilled (v : T)
| Rejected (error : Thrown).
Arguments Fulfilled {T} v.
Arguments Rejected {T} error.

(** [error.response?.status === n] *)
Definition status_is (error : Thrown) (n : Z) : bool :=
  match response_status error with
  | Some s => s =? n
  | None => false
  end.

(** The upstream throttling signal: an axios error whose response has
    status 429. *)
Definition throttled (error : Thrown) : bool :=
  isAxiosError error && status_is error 429.

(** ** [handleRequest] *)

(** The [catch] clause of [handleRequest]: [None] stands for the branch
    that waits and calls [handleRequest] again, [Some e] for [throw e]. *)
Definition catch_clause (error : Thrown) : option McpError :=
  if isAxiosError error then
    if status_is error 429 then None
    else
      Some (mkMcpError InternalError
              ("Trello API Error: " ++ template_number (response_status error)
                 ++ " " ++ thrown_message error)
              (response_body error))
  else Some (mkMcpError InternalError "An unexpected error occurred" None).

(** One execution of [handleRequest] on a world of type [W]: how it
    settled ([None] when the fuel ran out before it did), the world it left,
    and how many times it invoked [requestFn]. *)
Record Run (W T : Type) : Type := mkRun {
  settled : option (Settled T);
  world : W;
  invocations : nat
}.
Arguments mkRun {W T}.
Arguments settled {W T}.
Arguments world {W T}.
Arguments invocations {W T}.

Definition one_more {W T} (r : Run W T) : Run W T :=
  mkRun (settled r) (world r) (S (invocations r)).

(** [requestFn : () => Promise<T>], acting on the world. *)
Definition RequestFn (W T : Type) : Type := W -> Settled T * W.

Section ResilientExecution.

(** The effect on the world of
    [await new Promise(resolve => setTimeout(resolve, ms))]. *)
Context {W : Type}.
Variable setTimeout : Z -> W -> W.

(** [fuel] bounds the number of invocations of [requestFn]; the source
    itself has no such bound. *)
Fixpoint handleRequest {T} (fuel : nat) (requestFn : RequestFn W T) (w : W)
  : Run W T :=
  match fuel with
  | O => mkRun None w 0
  | S fuel' =>
      match requestFn w with
      | (Fulfilled v, w1) => mkRun (Some (Fulfilled v)) w1 1
      | (Rejected error, w1) =>
          match catch_clause error with
          | None =>
              one_more (handleRequest fuel' requestFn (setTimeout 1000 w1))
          | Some e => mkRun (Some (Rejected (ThrownMcp e))) w1 1
          end
      end
  end.

(** [Settles requestFn w r w' n]: started in [w], [handleRequest]
    settles as [r] in world [w'] after exactly [n] invocations of
    [requestFn]. *)
Inductive Settles {T} (requestFn : RequestFn W T)
  : W -> Settled T -> W -> nat -> Prop :=
| Settles_value w v w1 :
    requestFn w = (Fulfilled v, w1) ->
    Settles requestFn w (Fulfilled v) w1 1
| Settles_throw w error e w1 :
    requestFn w = (Rejected error, w1) ->
    catch_clause error = Some e ->
    Settles requestFn w (Rejected (ThrownMcp e)) w1 1
| Settles_retry w error w1 r w2 n :
    requestFn w = (Rejected error, w1) ->
    catch_clause error = None ->
    Settles requestFn (setTimeout 1000 w1) r w2 n ->
    Settles requestFn w r w2 (S n).

End ResilientExecution.

(** An operation that answers from a script: the world is the list of the
    outcomes still to come, and once it is used up every further invocation
    settles as [otherwise].  Waiting does not change it. *)
Definition scripted {T} (otherwise : Settled T)
  : RequestFn (list (Settled T)) T :=
  fun w =>
    match w with
    | [] => (otherwise, [])
    | o :: rest => (o, rest)
    end.

(** An operation that settles the same way at every invocation; the world
    is the number of invocations made. *)
Definition always {T} (o : Settled T) : RequestFn nat T :=
  fun n => (o, S n).

Definition no_wait {W} (ms : Z) (w : W) : W := w.

(** A world that is the log of the waits made, newest first. *)
Definition logged_wait (ms : Z) (w : list Z) : list Z := ms :: w.

(** The rejection axios produces for an upstream answer 429. *)
Definition too_many_requests : Thrown :=
  AxiosError "Request failed with status code 429"
             (Some (mkResponse 429 (JStr "Rate limit exceeded"))).

(** ** The axios instance, the rate-limiting interceptor and the world *)

Inductive Method : Type := GET | POST | PUT | DELETE.

(** A request handed to [this.axiosInstance]: verb, path, query
    parameters and body. *)
Record AxiosRequest : Type := mkRequest {
  method : Method;
  url : string;
  params : list (string * Json);
  body : option Json
}.

(** What the client runs against.  The upstream service answers a request
    by settling the axios promise; [waitForAvailableToken] is the limiter
    built by [createTrelloRateLimiters] (module [rate-limiter], outside
    this file), taken here as the state change it makes once it returns;
    [fs_mkdir] and [fs_writeFile] answer [true] when they succeed. *)
Record Platform : Type := mkPlatform {
  ServerState : Type;
  upstream :
    AxiosRequest -> ServerState -> Settled AxiosResponse * ServerState;
  LimiterState : Type;
  waitForAvailableToken : LimiterState -> LimiterState;
  FsState : Type;
  fs_mkdir : FsState -> bool * FsState;
  fs_writeFile : Json -> FsState -> bool * FsState
}.

(** What the client does to the outside, newest event first. *)
Inductive Event : Type :=
| TokenAcquired
| UpstreamCall (req : AxiosRequest)
| TimedOut (ms : Z)
| ConfigWritten (content : Json).

Record World (P : Platform) : Type := mkWorld {
  server : ServerState P;
  limiter : LimiterState P;
  fs : FsState P;
  trace : list Event
}.
Arguments mkWorld {P}.
Arguments server {P}.
Arguments limiter {P}.
Arguments fs {P}.
Arguments trace {P}.

(** The request interceptor installed by the constructor:
    [await this.rateLimiter.waitForAvailableToken(); return config]. *)
Definition interceptor {P} (w : World P) : World P :=
  mkWorld (server w) (waitForAvailableToken P (limiter w)) (fs w)
          (TokenAcquired :: trace w).

(** The transport behind the interceptors: one upstream call. *)
Definition adapter {P} (req : AxiosRequest) (w : World P)
  : Settled AxiosResponse * World P :=
  let (r, s) := upstream P req (server w) in
  (r, mkWorld s (limiter w) (fs w) (UpstreamCall req :: trace w)).

(** [this.axiosInstance.get/post/put/delete(...)]: the request interceptor,
    then the call. *)
Definition axiosInstance {P} (req : AxiosRequest) (w : World P)
  : Settled AxiosResponse * World P :=
  adapter req (interceptor w).

(** [setTimeout] on the client's world. *)
Definition timeout {P} (ms : Z) (w : World P) : World P :=
  mkWorld (server w) (limiter w) (fs w) (TimedOut ms :: trace w).

(** The body of a request function: it returns, throws, or awaits a call
    on the axios instance and goes on with its settlement (a rejected call
    reaches the continuation, which rethrows it unless the body has a
    [try]/[catch] around the call). *)
Inductive Prog (T : Type) : Type :=
| Return (v : T)
| Throw (error : Thrown)
| Await (req : AxiosRequest) (k : Settled AxiosResponse -> Prog T).
Arguments Return {T} v.
Arguments Throw {T} error.
Arguments Await {T} req k.

Fixpoint run {P T} (p : Prog T) (w : World P) : Settled T * World P :=
  match p with
  | Return v => (Fulfilled v, w)
  | Throw error => (Rejected error, w)
  | Await req k => let (r, w1) := axiosInstance req w in run (k r) w1
  end.

(** [const response = await this.axiosInstance.<verb>(...);
     return response.data;] *)
Definition return_data (req : AxiosRequest) : Prog Json :=
  Await req (fun r =>
    match r with
    | Fulfilled response => Return (response_data response)
    | Rejected error => Throw error
    end).

(** [this.handleRequest(async () => body)] *)
Definition handle {P T} (fuel : nat) (body : Prog T) (w : World P)
  : Run (World P) T :=
  handleRequest timeout fuel (run body) w.

(** ** The client *)

Record TrelloConfig : Type := mkConfig {
  apiKey : string;
  token : string;
  defaultBoardId : optstring;
  boardId : optstring;
  workspaceId : optstring
}.

Definition with_boardId (c : TrelloConfig) (b : optstring) : TrelloConfig :=
  mkConfig (apiKey c) (token c) (defaultBoardId c) b (workspaceId c).

(** The fields of [TrelloClient] that its methods read and write. *)
Record TrelloClient : Type := mkClient {
  config : TrelloConfig;
  this_defaultBoardId : optstring;
  activeConfig : TrelloConfig
}.

(** [constructor(config)] *)
Definition constructor (config : TrelloConfig) : TrelloClient :=
  let this_defaultBoardId := defaultBoardId config in
  let activeConfig := config in
  let activeConfig :=
    if truthy (boardId config) && negb (truthy (boardId activeConfig))
    then with_boardId activeConfig (boardId config) else activeConfig in
  let activeConfig :=
    if truthy this_defaultBoardId && negb (truthy (boardId activeConfig))
    then with_boardId activeConfig this_defaultBoardId else activeConfig in
  mkClient config this_defaultBoardId activeConfig.

(** A method that throws before it reaches [handleRequest]. *)
Definition throws {W T} (e : McpError) (w : W) : Run W T :=
  mkRun (Some (Rejected (ThrownMcp e))) w 0.

(** [boardId || this.activeConfig.boardId || this.defaultBoardId] *)
Definition effectiveBoardId (this : TrelloClient) (boardId' : optstring)
  : optstring :=
  or_else (or_else boardId' (boardId (activeConfig this)))
          (this_defaultBoardId this).

(** Past the guard [if (!effectiveBoardId) throw ...] the value is a
    string; [undefined] would print as such in a template literal. *)
Definition narrowed (x : optstring) : string :=
  match x with
  | Some s => s
  | None => "undefined"
  end.

Definition boardId_required : McpError :=
  mkMcpError InvalidParams
             "boardId is required when no default board is configured" None.

Definition getBoardById {P} (fuel : nat) (boardId : string) (w : World P)
  : Run (World P) Json :=
  handle fuel (return_data (mkRequest GET ("/boards/" ++ boardId) [] None)) w.

Definition getLists_request (id : string) : AxiosRequest :=
  mkRequest GET ("/boards/" ++ id ++ "/lists") [] None.

Definition getLists {P} (fuel : nat) (this : TrelloClient)
  (boardId : optstring) (w : World P) : Run (World P) Json :=
  let effectiveBoardId := effectiveBoardId this boardId in
  if negb (truthy effectiveBoardId) then throws boardId_required w
  else handle fuel
         (return_data (getLists_request (narrowed effectiveBoardId))) w.

Definition getRecentActivity_request (id : string) (limit : Z)
  : AxiosRequest :=
  mkRequest GET ("/boards/" ++ id ++ "/actions") [("limit", JNum limit)] None.

Definition getRecentActivity {P} (fuel : nat) (this : TrelloClient)
  (boardId : optstring) (limit : option Z) (w : World P)
  : Run (World P) Json :=
  let limit := match limit with Some l => l | None => 10 end in
  let effectiveBoardId := effectiveBoardId this boardId in
  if negb (truthy effectiveBoardId) then throws boardId_required w
  else handle fuel
         (return_data
            (getRecentActivity_request (narrowed effectiveBoardId) limit)) w.

Definition addList_request (id name : string) : AxiosRequest :=
  mkRequest POST "/lists" []
            (Some (JObj [("name", JStr name); ("idBoard", JStr id)])).

Definition addList {P} (fuel : nat) (this : TrelloClient)
  (boardId : optstring) (name : string) (w : World P)
  : Run (World P) Json :=
  let effectiveBoardId := effectiveBoardId this boardId in
  if negb (truthy effectiveBoardId) then throws boardId_required w
  else handle fuel
         (return_data (addList_request (narrowed effectiveBoardId) name)) w.

Definition getBoardMembers_request (id : string) : AxiosRequest :=
  mkRequest GET ("/boards/" ++ id ++ "/members") [] None.

Definition getBoardMembers {P} (fuel : nat) (this : TrelloClient)
  (boardId : optstring) (w : World P) : Run (World P) Json :=
  let effectiveBoardId := effectiveBoardId this boardId in
  if negb (truthy effectiveBoardId) then throws boardId_required w
  else handle fuel
         (return_data (getBoardMembers_request (narrowed effectiveBoardId))) w.

Definition getBoardLabels_request (id : string) : AxiosRequest :=
  mkRequest GET ("/boards/" ++ id ++ "/labels") [] None.

Definition getBoardLabels {P} (fuel : nat) (this : TrelloClient)
  (boardId : optstring) (w : World P) : Run (World P) Json :=
  let effectiveBoardId := effectiveBoardId this boardId in
  if negb (truthy effectiveBoardId) then throws boardId_required w
  else handle fuel
         (return_data (getBoardLabels_request (narrowed effectiveBoardId))) w.

(** An object literal drops nothing, but [JSON] serialisation omits the
    properties whose value is [undefined]. *)
Definition optional_field (key : string) (v : optstring)
  : list (string * Json) :=
  match v with
  | Some s => [(key, JStr s)]
  | None => []
  end.

Definition createLabel_request (id name : string) (color : optstring)
  : AxiosRequest :=
  mkRequest POST ("/boards/" ++ id ++ "/labels") []
            (Some (JObj (("name", JStr name) :: optional_field "color" color))).

Definition createLabel {P} (fuel : nat) (this : TrelloClient)
  (boardId : optstring) (name : string) (color : optstring) (w : World P)
  : Run (World P) Json :=
  let effectiveBoardId := effectiveBoardId this boardId in
  if negb (truthy effectiveBoardId) then throws boardId_required w
  else handle fuel
         (return_data
            (createLabel_request (narrowed effectiveBoardId) name color)) w.

(** The six methods that resolve the board the same way, with their other
    arguments. *)
Inductive BoardMethod : Type :=
| GetLists
| GetRecentActivity (limit : option Z)
| AddList (name : string)
| GetBoardMembers
| GetBoardLabels
| CreateLabel (name : string) (color : optstring).

Definition call_method {P} (m : BoardMethod) (fuel : nat)
  (this : TrelloClient) (boardId : optstring) (w : World P)
  : Run (World P) Json :=
  match m with
  | GetLists => getLists fuel this boardId w
  | GetRecentActivity limit => getRecentActivity fuel this boardId limit w
  | AddList name => addList fuel this boardId name w
  | GetBoardMembers => getBoardMembers fuel this boardId w
  | GetBoardLabels => getBoardLabels fuel this boardId w
  | CreateLabel name color => createLabel fuel this boardId name color w
  end.

(** The request each of them sends for board [id]. *)
Definition request_of (m : BoardMethod) (id : string) : AxiosRequest :=
  match m with
  | GetLists => getLists_request id
  | GetRecentActivity limit =>
      getRecentActivity_request id
        (match limit with Some l => l | None => 10 end)
  | AddList name => addList_request id name
  | GetBoardMembers => getBoardMembers_request id
  | GetBoardLabels => getBoardLabels_request id
  | CreateLabel name color => createLabel_request id name color
  end.

(** ** Saving the active configuration *)

(** [{ boardId: this.activeConfig.boardId,
       workspaceId: this.activeConfig.workspaceId }], as serialised. *)
Definition configToSave (this : TrelloClient) : Json :=
  JObj (optional_field "boardId" (boardId (activeConfig this))
        ++ optional_field "workspaceId" (workspaceId (activeConfig this))).

Definition save_failed : Thrown := JsError "Failed to save configuration".

(** [saveConfig()]: any failure of [mkdir] or [writeFile] is caught and
    replaced by [Error('Failed to save configuration')]. *)
Definition saveConfig {P} (this : TrelloClient) (w : World P)
  : Settled unit * World P :=
  let (made, fs1) := fs_mkdir P (fs w) in
  if made then
    let content := configToSave this in
    let (written, fs2) := fs_writeFile P content fs1 in
    if written
    then (Fulfilled tt,
          mkWorld (server w) (limiter w) fs2 (ConfigWritten content :: trace w))
    else (Rejected save_failed, mkWorld (server w) (limiter w) fs2 (trace w))
  else (Rejected save_failed, mkWorld (server w) (limiter w) fs1 (trace w)).

(** Whether [saveConfig] would succeed: both file-system calls do. *)
Definition save_succeeds {P} (this : TrelloClient) (w : World P) : bool :=
  let (made, fs1) := fs_mkdir P (fs w) in
  made && fst (fs_writeFile P (configToSave this) fs1).

(** [setActiveBoard(boardId)]: the client it leaves and how the call
    went. *)
Definition setActiveBoard {P} (fuel : nat) (this : TrelloClient)
  (boardId : string) (w : World P) : TrelloClient * Run (World P) Json :=
  let verified := getBoardById fuel boardId w in
  match settled verified with
  | Some (Fulfilled board) =>
      let this' :=
        mkClient (config this) (this_defaultBoardId this)
                 (with_boardId (activeConfig this) (Some boardId)) in
      match saveConfig this' (world verified) with
      | (Fulfilled _, w') =>
          (this', mkRun (Some (Fulfilled board)) w' (invocations verified))
      | (Rejected error, w') =>
          (this', mkRun (Some (Rejected error)) w' (invocations verified))
      end
  | _ => (this, verified)
  end.

(** ** Reading the trace *)

Definition is_call (ev : Event) : bool :=
  match ev with
  | UpstreamCall _ => true
  | _ => false
  end.

Definition is_token (ev : Event) : bool :=
  match ev with
  | TokenAcquired => true
  | _ => false
  end.

Definition calls (tr : list Event) : nat := List.length (filter is_call tr).
Definition tokens (tr : list Event) : nat := List.length (filter is_token tr).

(** [admitted tr]: in the trace [tr] (newest event first) every upstream
    call comes right after the acquisition of a token. *)
Fixpoint admitted (tr : list Event) : bool :=
  match tr with
  | [] => true
  | UpstreamCall _ :: rest =>
      match rest with
      | TokenAcquired :: _ => admitted rest
      | _ => false
      end
  | _ :: rest => admitted rest
  end.

(** What an execution adds to the trace of the world it started in, and
    what it does to the limiter. *)
Definition extends {P} (w w' : World P) (evs : list Event) : Prop :=
  trace w' = (evs ++ trace w)%list /\
  admitted evs = true /\
  tokens evs = calls evs /\
  limiter w' = Nat.iter (calls evs) (waitForAvailableToken P) (limiter w).

(** The first truthy value of a list of [string | undefined]. *)
Fixpoint first_present (ids : list optstring) : optstring :=
  match ids with
  | [] => None
  | x :: rest => if truthy x then x else first_present rest
  end.

(** ** A platform to run examples on *)

(** The service answers from a script and is unreachable once the script
    is used up; the limiter counts the tokens it has given; the disk keeps
    what is written to it when it is [writable], and refuses otherwise. *)
Definition scripted_platform (writable : bool) : Platform :=
  mkPlatform
    (list (Settled AxiosResponse))
    (fun _ s =>
       match s with
       | [] => (Rejected (AxiosError "Network Error" None), [])
       | r :: rest => (r, rest)
       end)
    nat S
    (list Json)
    (fun disk => (true, disk))
    (fun content disk =>
       if writable then (true, content :: disk) else (false, disk)).

Definition scripted_world (writable : bool)
  (script : list (Settled AxiosResponse))
  : World (scripted_platform writable) :=
  mkWorld (P := scripted_platform writable) script 0%nat [] [].

(** ** The rate limiter behind [waitForAvailableToken]

    The module [rate-limiter] that [createTrelloRateLimiters] comes from is
    not part of the sources at hand; its windows, limiter and wait queue
    are modelled here from sections 3 to 5 of the specification.  Time is
    in milliseconds.  Mutation is serialised (section 5), so an
    interleaving of concurrent callers is a sequence of atomic operations,
    each stamped with the time at which it runs. *)

Module RateLimiter.

(** Modelled from the spec: the [RateWindow] of the absent [rate-limiter]
    module (section 3): a capacity, a duration and the usage log, the
    timestamps of the admissions not yet dropped, oldest first. *)
Record RateWindow : Type := mkWindow {
  capacity : nat;
  duration : Z;
  usageLog : list Z
}.

(** [t] lies in the half-open trailing interval [(lo, hi]]. *)
Definition between (lo hi t : Z) : bool := (lo <? t) && (t <=? hi).

(** How many of the timestamps [ts] lie in [(lo, hi]]. *)
Definition within (lo hi : Z) (ts : list Z) : nat :=
  List.length (filter (between lo hi) ts).

(** Modelled from the spec: the lazy pruning of [RateWindow] (section 4.1,
    "pruning of expired entries happens lazily on every call"): the entries
    that aged out of the window at [now] are dropped. *)
Definition prune (now : Z) (w : RateWindow) : RateWindow :=
  mkWindow (capacity w) (duration w)
           (filter (fun t => now - duration w <? t) (usageLog w)).

Definition record (now : Z) (w : RateWindow) : RateWindow :=
  mkWindow (capacity w) (duration w) (usageLog w ++ [now]).

(** What [tryConsume] answers: admitted, or the earliest time at which a
    slot frees. *)
Inductive Admission : Type :=
| Granted
| Refused (freeAt : Z).

(** Whether fewer than [capacity] entries fall within
    [(now - duration, now]]. *)
Definition spare (now : Z) (w : RateWindow) : bool :=
  (within (now - duration w) now (usageLog w) <? capacity w)%nat.

(** The timestamp of the oldest entry plus the duration. *)
Definition freeAt (now : Z) (w : RateWindow) : Z :=
  hd now (usageLog w) + duration w.

(** Modelled from the spec: [RateWindow.tryConsume(now)] of the absent
    [rate-limiter] module (section 4.1): it prunes, then admits and records
    [now] iff fewer than [capacity] entries fall within
    [(now - duration, now]], and otherwise refuses with the time at which
    the oldest entry leaves the window. *)
Definition tryConsume (now : Z) (w : RateWindow) : Admission * RateWindow :=
  let w := prune now w in
  if spare now w then (Granted, record now w)
  else (Refused (freeAt now w), w).

(** Modelled from the spec: the [PendingAcquirer] of the absent
    [rate-limiter] module (section 3): the handle of one suspended caller
    (a ticket), with its enqueue time and its computed earliest-retry
    time.  Tickets are given in the order of the calls to [acquire]. *)
Record PendingAcquirer : Type := mkPending {
  ticket : nat;
  enqueuedAt : Z;
  retryAt : Z
}.

(** What happened to the callers, newest entry first. *)
Inductive Entry : Type :=
| Suspended (h : nat) (now : Z)
| AdmittedAt (h : nat) (now : Z)
| Cancelled (h : nat) (now : Z).

(** Modelled from the spec: the [DualWindowLimiter] of the absent
    [rate-limiter] module with its [LimiterState] and [WaitQueue]
    (sections 3, 4.2 and 4.3): the window of the application credential,
    the window of the user credential, the queue of suspended acquirers
    (longest-waiting first), the next ticket to give, and the journal of
    what was decided. *)
Record DualWindowLimiter : Type := mkLimiter {
  appWindow : RateWindow;
  userWindow : RateWindow;
  waitQueue : list PendingAcquirer;
  nextTicket : nat;
  journal : list Entry
}.

(** The limiter at process start: empty logs, nobody waiting. *)
Definition createLimiter (appCapacity : nat) (appDuration : Z)
  (userCapacity : nat) (userDuration : Z) : DualWindowLimiter :=
  mkLimiter (mkWindow appCapacity appDuration [])
            (mkWindow userCapacity userDuration []) [] 0 [].

(** Modelled from the spec: admission by both windows at once (section
    4.2, "the call must be admitted by both underlying RateWindows
    simultaneously"): both record [now], or none does and the answer is the
    later of the times at which the saturated windows free a slot. *)
Definition tryConsumeBoth (now : Z) (app user : RateWindow)
  : Admission * (RateWindow * RateWindow) :=
  match tryConsume now app, tryConsume now user with
  | (Granted, app'), (Granted, user') => (Granted, (app', user'))
  | (Refused t, _), (Granted, _) =>
      (Refused t, (prune now app, prune now user))
  | (Granted, _), (Refused t, _) =>
      (Refused t, (prune now app, prune now user))
  | (Refused t1, _), (Refused t2, _) =>
      (Refused (Z.max t1 t2), (prune now app, prune now user))
  end.

(** Modelled from the spec: [DualWindowLimiter.acquire()] up to its
    suspension point (section 4.2).  With nobody waiting the caller is
    admitted if both windows admit it; otherwise it is suspended at the
    back of the queue.  A caller that arrives while others wait queues
    behind them ("only one caller may consume the just-freed slot, and it
    must be the longest-waiting eligible caller"). *)
Definition acquire (now : Z) (l : DualWindowLimiter) : DualWindowLimiter :=
  let h := nextTicket l in
  match waitQueue l with
  | [] =>
      match tryConsumeBoth now (appWindow l) (userWindow l) with
      | (Granted, (app, user)) =>
          mkLimiter app user [] (S h) (AdmittedAt h now :: journal l)
      | (Refused t, (app, user)) =>
          mkLimiter app user [mkPending h now t] (S h)
                    (Suspended h now :: journal l)
      end
  | _ :: _ =>
      mkLimiter (appWindow l) (userWindow l)
                (waitQueue l ++ [mkPending h now now]) (S h)
                (Suspended h now :: journal l)
  end.

(** Modelled from the spec: [WaitQueue.notifyCapacityMayBeAvailable()]
    (section 4.3): only the head of the queue is examined again; it is
    admitted if both windows admit it, and stays at the head with a new
    retry time otherwise, the callers behind it being left alone. *)
Definition notifyCapacityMayBeAvailable (now : Z) (l : DualWindowLimiter)
  : DualWindowLimiter :=
  match waitQueue l with
  | [] => l
  | p :: rest =>
      match tryConsumeBoth now (appWindow l) (userWindow l) with
      | (Granted, (app, user)) =>
          mkLimiter app user rest (nextTicket l)
                    (AdmittedAt (ticket p) now :: journal l)
      | (Refused t, (app, user)) =>
          mkLimiter app user (mkPending (ticket p) (enqueuedAt p) t :: rest)
                    (nextTicket l) (journal l)
      end
  end.

Definition waiting (h : nat) (l : DualWindowLimiter) : bool :=
  existsb (fun p => Nat.eqb (ticket p) h) (waitQueue l).

(** Modelled from the spec: cancellation of a suspended caller (section
    4.2): it leaves the queue and no quota is consumed. *)
Definition cancel (h : nat) (now : Z) (l : DualWindowLimiter)
  : DualWindowLimiter :=
  if waiting h l then
    mkLimiter (appWindow l) (userWindow l)
              (filter (fun p => negb (Nat.eqb (ticket p) h)) (waitQueue l))
              (nextTicket l) (Cancelled h now :: journal l)
  else l.

(** The atomic operations on the limiter state. *)
Inductive Op : Type :=
| Acquire
| Notify
| Cancel (h : nat).

Definition step (l : DualWindowLimiter) (ev : Z * Op) : DualWindowLimiter :=
  match ev with
  | (now, Acquire) => acquire now l
  | (now, Notify) => notifyCapacityMayBeAvailable now l
  | (now, Cancel h) => cancel h now l
  end.

(** An interleaving of the callers' operations, run from [l]. *)
Definition interleave (events : list (Z * Op)) (l : DualWindowLimiter)
  : DualWindowLimiter :=
  fold_left step events l.

(** The clock does not go back: each operation runs no earlier than the
    one before it, the first one no earlier than [clock]. *)
Fixpoint chronological (clock : Z) (events : list (Z * Op)) : Prop :=
  match events with
  | [] => True
  | (now, _) :: rest => clock <= now /\ chronological now rest
  end.

(** The times of the admissions of a journal. *)
Fixpoint admissions (j : list Entry) : list Z :=
  match j with
  | [] => []
  | AdmittedAt _ now :: rest => now :: admissions rest
  | _ :: rest => admissions rest
  end.


(** How many of the timestamps [ts] are later than [lo]. *)
Definition later (lo : Z) (ts : list Z) : nat :=
  List.length (filter (fun t => lo <? t) ts).

(** The state of a window agrees with the admissions made so far, [hist],
    at clock time [clock]: nothing is in the future, the log counts what
    the history counts in any window still to come, and the quota holds
    over every trailing interval. *)
Record agrees (w : RateWindow) (hist : list Z) (clock : Z) : Prop := {
  log_past : Forall (fun t => t <= clock) (usageLog w);
  hist_past : Forall (fun t => t <= clock) hist;
  log_counts : forall now, clock <= now ->
      later (now - duration w) (usageLog w) = later (now - duration w) hist;
  quota : forall t, (within (t - duration w) t hist <= capacity w)%nat
}.

(** Both windows of the limiter agree with its journal. *)
Definition limiter_agrees (l : DualWindowLimiter) (clock : Z) : Prop :=
  agrees (appWindow l) (admissions (journal l)) clock /\
  agrees (userWindow l) (admissions (journal l)) clock.

(** The scenario of the specification (section 8), capacity 5 over 10 s:
    six callers at [t = 0], then the queue is notified just before and at
    the time at which the oldest entry leaves the window. *)
Definition six_callers : list (Z * Op) :=
  [(0, Acquire); (0, Acquire); (0, Acquire); (0, Acquire); (0, Acquire);
   (0, Acquire); (9999, Notify); (10000, Notify)].

(** Four callers on one slot per 10 ms: the second and the third wait, a
    fourth arrives when the slot of the first has just been given to the
    second. *)
Definition four_callers : list (Z * Op) :=
  [(0, Acquire); (0, Acquire); (5, Acquire); (10, Notify); (10, Acquire);
   (20, Notify)].


Definition tickets (q : list PendingAcquirer) : list nat := map ticket q.









End RateLimiter.

(** ** Numbers and checklists

    A JavaScript number is an IEEE 754 binary64 value; the arithmetic of
    [convertToCheckList] is modelled on the Standard Library's
    specification of it ([spec_float], with 53 bits of precision and
    exponents below 1024). *)

Definition prec : Z := 53.
Definition emax : Z := 1024.

(** The number that an integer literal or an array length denotes. *)
Definition Number_of_Z (z : Z) : spec_float :=
  binary_normalize prec emax z 0 false.

Definition Number_of_nat (n : nat) : spec_float := Number_of_Z (Z.of_nat n).

Definition hundred : spec_float := Number_of_Z 100.

(** The mantissa of [hundred], which is [100 * 2^46]. *)
Definition H100 : Z := 7036874417766400.

(** [x > y] on numbers. *)
Definition greater (x y : spec_float) : bool := SFltb y x.

(** [floor (x + 1/2)] for [x = (-1)^s * m * 2^e], computed exactly. *)
Definition round_half_up (s : bool) (m : positive) (e : Z) : Z :=
  if 0 <=? e then cond_Zopp s (Zpos m * 2 ^ e)
  else (2 * cond_Zopp s (Zpos m) + 2 ^ (- e)) / 2 ^ (- e + 1).

(** [Math.round]: the nearest integer, the upper one at a tie; zeros,
    infinities and NaN are returned as they are, and a result of zero keeps
    the sign of the argument. *)
Definition Math_round (x : spec_float) : spec_float :=
  match x with
  | S754_finite s m e => binary_normalize prec emax (round_half_up s m e) 0 s
  | _ => x
  end.

(** The fields of the Trello types that the conversion reads ([types.ts]
    is not among the sources; the fields are those the code uses). *)
Record TrelloCheckItem : Type := mkCheckItem {
  item_id : string;
  item_name : string;
  state : string
}.

Record TrelloChecklist : Type := mkChecklist {
  checklist_id : string;
  checklist_name : string;
  checkItems : list TrelloCheckItem
}.

Record CheckListItem : Type := mkCheckListItem {
  id : string;
  text : string;
  complete : bool;
  parentCheckListId : string
}.

Record CheckList : Type := mkCheckList {
  list_id : string;
  list_name : string;
  items : list CheckListItem;
  percentComplete : spec_float
}.

Definition convertToCheckListItem (trelloItem : TrelloCheckItem)
  (parentCheckListId : string) : CheckListItem :=
  mkCheckListItem (item_id trelloItem) (item_name trelloItem)
                  (String.eqb (state trelloItem) "complete")
                  parentCheckListId.

Definition convertToCheckList (trelloChecklist : TrelloChecklist) : CheckList :=
  let completedItems :=
    Number_of_nat
      (List.length
         (filter (fun item => String.eqb (state item) "complete")
                 (checkItems trelloChecklist))) in
  let totalItems := Number_of_nat (List.length (checkItems trelloChecklist)) in
  let percentComplete :=
    if greater totalItems (Number_of_Z 0)
    then Math_round
           (SFmul prec emax (SFdiv prec emax completedItems totalItems) hundred)
    else Number_of_Z 0 in
  mkCheckList (checklist_id trelloChecklist) (checklist_name trelloChecklist)
              (map (fun item =>
                      convertToCheckListItem item (checklist_id trelloChecklist))
                   (checkItems trelloChecklist))
              percentComplete.

(** The percentage as the specification words it,
    [round(100 * completedItems / totalItems)] over the rationals:
    [floor (100 * c / t + 1/2)]. *)
Definition spec_percentComplete (completedItems totalItems : Z) : Z :=
  (2 * (100 * completedItems) + totalItems) / (2 * totalItems).

(** A checklist of [total] items, the first [completed] of which are
    complete. *)
Definition checklist_of (completed total : nat) : TrelloChecklist :=
  mkChecklist "cl" "Acceptance Criteria"
    (repeat (mkCheckItem "i" "item" "complete") completed
     ++ repeat (mkCheckItem "i" "item" "incomplete") (total - completed)).

(** *** Reading the rounding of [spec_float] *)

(** A shift register that has lost no bit. *)
Definition lossless (mrs : shr_record) : Prop :=
  shr_r mrs = false /\ shr_s mrs = false.

(** [b] is [a] shifted right by [k] bits. *)
Definition shifted (k : Z) (a b : shr_record) : Prop :=
  shr_m b = shr_m a / 2 ^ k /\
  (lossless a -> shr_m a mod 2 ^ k = 0 -> lossless b).

(** The value [m * 2^e] is at most the integer [b]. *)
Definition at_most (m : positive) (e : Z) (b : Z) : Prop :=
  Zpos m * 2 ^ Z.max 0 e <= b * 2 ^ Z.max 0 (- e).

(** ** More of the client: workspace, stored configuration, cards,
       checklists *)

(** [getWorkspaceById(workspaceId)] *)
Definition getWorkspaceById {P} (fuel : nat) (workspaceId : string)
  (w : World P) : Run (World P) Json :=
  handle fuel
    (return_data (mkRequest GET ("/organizations/" ++ workspaceId) [] None)) w.

Definition with_workspaceId (c : TrelloConfig) (ws : optstring)
  : TrelloConfig :=
  mkConfig (apiKey c) (token c) (defaultBoardId c) (boardId c) ws.

(** [setActiveWorkspace(workspaceId)]: the client it leaves and how the
    call went. *)
Definition setActiveWorkspace {P} (fuel : nat) (this : TrelloClient)
  (workspaceId : string) (w : World P)
  : TrelloClient * Run (World P) Json :=
  let verified := getWorkspaceById fuel workspaceId w in
  match settled verified with
  | Some (Fulfilled workspace) =>
      let this' :=
        mkClient (config this) (this_defaultBoardId this)
                 (with_workspaceId (activeConfig this) (Some workspaceId)) in
      match saveConfig this' (world verified) with
      | (Fulfilled _, w') =>
          (this', mkRun (Some (Fulfilled workspace)) w' (invocations verified))
      | (Rejected error, w') =>
          (this', mkRun (Some (Rejected error)) w' (invocations verified))
      end
  | _ => (this, verified)
  end.

(** The last configuration written to disk, if any (the trace is newest
    first). *)
Fixpoint last_written (tr : list Event) : option Json :=
  match tr with
  | [] => None
  | ConfigWritten content :: _ => Some content
  | _ :: rest => last_written rest
  end.

(** *** [loadConfig] *)

(** An [Error] thrown by the file system, with its [code] property when
    it has one. *)
Record NodeError : Type := mkNodeError {
  node_message : string;
  node_code : option string
}.

(** How the [try] block of [loadConfig] goes: [mkdir] or [readFile]
    throws, or [JSON.parse] (or the reading of a property of its result)
    throws an error that has no [code], or the saved configuration is read.
    Of the parsed object only the two properties that [loadConfig] reads
    are kept, at the type [TrelloConfig] gives them. *)
Inductive ReadOutcome : Type :=
| FsThrew (error : NodeError)
| ParseThrew (error_message : string)
| Parsed (savedBoardId savedWorkspaceId : optstring).

(** [loadConfig()]: how the call settles and the client it leaves. *)
Definition loadConfig (read : ReadOutcome) (this : TrelloClient)
  : Settled unit * TrelloClient :=
  match read with
  | Parsed savedBoardId savedWorkspaceId =>
      let activeConfig := activeConfig this in
      let activeConfig :=
        if truthy savedBoardId then with_boardId activeConfig savedBoardId
        else activeConfig in
      let activeConfig :=
        if truthy savedWorkspaceId
        then with_workspaceId activeConfig savedWorkspaceId
        else activeConfig in
      (Fulfilled tt,
       mkClient (config this) (this_defaultBoardId this) activeConfig)
  | FsThrew error =>
      match node_code error with
      | Some c =>
          if negb (String.eqb c "ENOENT")
          then (Rejected (JsError (node_message error)), this)
          else (Fulfilled tt, this)
      | None => (Fulfilled tt, this)
      end
  | ParseThrew _ => (Fulfilled tt, this)
  end.

Fixpoint lookup_field (key : string) (fields : list (string * Json))
  : option Json :=
  match fields with
  | [] => None
  | (k, v) :: rest => if String.eqb k key then Some v else lookup_field key rest
  end.

(** [savedConfig.key] for the object that [JSON.parse] gives back, in a
    file whose ids are strings, as they are in every file that
    [saveConfig] writes.  ([loadConfig] takes any truthy value there; a file
    edited by hand to hold a number, say, falls outside [read_back], the
    ids being strings in [TrelloConfig].) *)
Definition string_field (key : string) (content : Json) : optstring :=
  match content with
  | JObj fields =>
      match lookup_field key fields with
      | Some (JStr s) => Some s
      | _ => None
      end
  | _ => None
  end.

(** Reading back a file that holds [content]. *)
Definition read_back (content : Json) : ReadOutcome :=
  Parsed (string_field "boardId" content) (string_field "workspaceId" content).

(** *** The server's client ([index.ts]) *)

(** The constructor of [TrelloServer], up to the client it builds from the
    environment variables; [Rejected] stands for its [throw]. *)
Definition TrelloServer_constructor
  (TRELLO_API_KEY TRELLO_TOKEN TRELLO_BOARD_ID : optstring)
  : Settled TrelloClient :=
  let apiKey := TRELLO_API_KEY in
  let token := TRELLO_TOKEN in
  let defaultBoardId := TRELLO_BOARD_ID in
  if negb (truthy apiKey) || negb (truthy token) then
    Rejected (JsError
      "TRELLO_API_KEY and TRELLO_TOKEN environment variables are required")
  else
    Fulfilled (constructor
                 (mkConfig (narrowed apiKey) (narrowed token)
                           defaultBoardId defaultBoardId None)).

(** *** [moveCard] *)

Definition moveCard_request (cardId listId : string)
  (effectiveBoardId : optstring) : AxiosRequest :=
  mkRequest PUT ("/cards/" ++ cardId) []
    (Some (JObj (("idList", JStr listId)
                 :: (if truthy effectiveBoardId
                     then [("idBoard", JStr (narrowed effectiveBoardId))]
                     else [])))).

(** [moveCard(boardId, cardId, listId)], with
    [effectiveBoardId = boardId || this.defaultBoardId]. *)
Definition moveCard {P} (fuel : nat) (this : TrelloClient)
  (boardId : optstring) (cardId listId : string) (w : World P)
  : Run (World P) Json :=
  let effectiveBoardId := or_else boardId (this_defaultBoardId this) in
  handle fuel (return_data (moveCard_request cardId listId effectiveBoardId)) w.

(** *** Checklists *)

(** Upstream, in state [s], answers the successive calls of [req] with
    [outcomes], one after the other, and is left in state [s']. *)
Fixpoint answers {P} (req : AxiosRequest) (s : ServerState P)
  (outcomes : list (Settled AxiosResponse)) (s' : ServerState P) : Prop :=
  match outcomes with
  | [] => s' = s
  | outcome :: rest =>
      fst (upstream P req s) = outcome /\
      answers req (snd (upstream P req s)) rest s'
  end.

(** The saved board id that [loadConfig] found, if it found one. *)
Definition saved_board (read : ReadOutcome) : optstring :=
  match read with
  | Parsed savedBoardId _ => savedBoardId
  | _ => None
  end.

Fixpoint bind {A B} (p : Prog A) (f : A -> Prog B) : Prog B :=
  match p with
  | Return v => f v
  | Throw error => Throw error
  | Await req k => Await req (fun r => bind (k r) f)
  end.

(** [getCardChecklists(cardId)]: the call is made outside
    [handleRequest]. *)
Definition getCardChecklists_request (cardId : string) : AxiosRequest :=
  mkRequest GET ("/cards/" ++ cardId ++ "/checklists") [] None.

Definition getCardChecklists {P} (cardId : string) (w : World P)
  : Settled Json * World P :=
  run (return_data (getCardChecklists_request cardId)) w.

Definition no_card : McpError :=
  mkMcpError InvalidParams "No card ID provided and no active card set" None.

Definition createChecklist_request (name cardId : string) : AxiosRequest :=
  mkRequest POST ("/cards/" ++ cardId ++ "/checklists") []
            (Some (JObj [("name", JStr name)])).

(** [createChecklist(name, cardId)] *)
Definition createChecklist {P} (name cardId : string) (w : World P)
  : Settled Json * World P :=
  if negb (truthy (Some cardId)) then (Rejected (ThrownMcp no_card), w)
  else run (return_data (createChecklist_request name cardId)) w.

Definition no_board_or_card : McpError :=
  mkMcpError InvalidParams
    "No board ID or card ID provided and no active board set" None.

Definition card_request (cardId : string) : AxiosRequest :=
  mkRequest GET ("/cards/" ++ cardId) [("checklists", JStr "all")] None.

Definition board_checklists_request (id : string) : AxiosRequest :=
  mkRequest GET ("/boards/" ++ id ++ "/checklists") [] None.

Definition dquote : string := String (Ascii.ascii_of_nat 34) EmptyString.

(** [`Checklist "${checkListName}" not found${cardId ? ' on card' :
    ' on board'}`] *)
Definition checklist_not_found (checkListName : string) (cardId : optstring)
  : McpError :=
  mkMcpError InvalidParams
    ("Checklist " ++ dquote ++ checkListName ++ dquote ++ " not found"
       ++ (if truthy cardId then " on card" else " on board"))
    None.

Section Checklists.

(** [String.prototype.toLowerCase], and how a response body reads at the
    type the code gives it: [cardResponse.data.checklists] (absent when the
    card carries none), [response.data] as [TrelloChecklist[]], and
    [itemResponse.data] as [TrelloCheckItem]. *)
Variable toLowerCase : string -> string.
Variable card_checklists : Json -> option (list TrelloChecklist).
Variable board_checklists : Json -> list TrelloChecklist.
Variable check_item : Json -> TrelloCheckItem.

(** The block that [getChecklistItems], [addChecklistItem],
    [findChecklistItemsByDescription] and [getChecklistByName] all start
    with: the checklists of the card when [cardId] is given, and otherwise
    those of [boardId || this.activeConfig.boardId]. *)
Definition fetch_checklists (this : TrelloClient) (cardId boardId' : optstring)
  : Prog (list TrelloChecklist) :=
  if truthy cardId then
    Await (card_request (narrowed cardId)) (fun r =>
      match r with
      | Fulfilled cardResponse =>
          Return (match card_checklists (response_data cardResponse) with
                  | Some checklists => checklists
                  | None => []
                  end)
      | Rejected error => Throw error
      end)
  else
    let effectiveBoardId := or_else boardId' (boardId (activeConfig this)) in
    if negb (truthy effectiveBoardId) then Throw (ThrownMcp no_board_or_card)
    else
      Await (board_checklists_request (narrowed effectiveBoardId)) (fun r =>
        match r with
        | Fulfilled response => Return (board_checklists (response_data response))
        | Rejected error => Throw error
        end).

(** [checklist.name.toLowerCase() === name.toLowerCase()] *)
Definition same_name (name : string) (checklist : TrelloChecklist) : bool :=
  String.eqb (toLowerCase (checklist_name checklist)) (toLowerCase name).

(** The loop of [getChecklistItems]: the converted items of every checklist
    of that name, in order. *)
Definition items_named (name : string) (checklists : list TrelloChecklist)
  : list CheckListItem :=
  flat_map
    (fun checklist =>
       if same_name name checklist
       then map (fun item => convertToCheckListItem item (checklist_id checklist))
                (checkItems checklist)
       else [])
    checklists.

(** [getChecklistItems(name, cardId, boardId)] *)
Definition getChecklistItems {P} (this : TrelloClient) (name : string)
  (cardId boardId : optstring) (w : World P)
  : Settled (list CheckListItem) * World P :=
  run (bind (fetch_checklists this cardId boardId)
            (fun checklists => Return (items_named name checklists))) w.

(** [getAcceptanceCriteria(cardId, boardId)] *)
Definition getAcceptanceCriteria {P} (this : TrelloClient)
  (cardId boardId : optstring) (w : World P)
  : Settled (list CheckListItem) * World P :=
  getChecklistItems this "Acceptance Criteria" cardId boardId w.

(** The loops of [findChecklistItemsByDescription]. *)
Definition items_matching (description : string)
  (checklists : list TrelloChecklist) : list CheckListItem :=
  let searchTerm := toLowerCase description in
  flat_map
    (fun checklist =>
       map (fun checkItem =>
              convertToCheckListItem checkItem (checklist_id checklist))
           (filter (fun checkItem =>
                      includes searchTerm (toLowerCase (item_name checkItem)))
                   (checkItems checklist)))
    checklists.

(** [findChecklistItemsByDescription(description, cardId, boardId)] *)
Definition findChecklistItemsByDescription {P} (this : TrelloClient)
  (description : string) (cardId boardId : optstring) (w : World P)
  : Settled (list CheckListItem) * World P :=
  run (bind (fetch_checklists this cardId boardId)
            (fun checklists => Return (items_matching description checklists)))
      w.

(** [getChecklistByName(name, cardId, boardId)]; [None] is [null]. *)
Definition getChecklistByName {P} (this : TrelloClient) (name : string)
  (cardId boardId : optstring) (w : World P)
  : Settled (option CheckList) * World P :=
  run (bind (fetch_checklists this cardId boardId)
            (fun checklists =>
               match find (same_name name) checklists with
               | Some targetChecklist =>
                   Return (Some (convertToCheckList targetChecklist))
               | None => Return None
               end)) w.

Definition addChecklistItem_request (checklistId text : string)
  : AxiosRequest :=
  mkRequest POST ("/checklists/" ++ checklistId ++ "/checkItems") []
            (Some (JObj [("name", JStr text)])).

(** [addChecklistItem(text, checkListName, cardId, boardId)] *)
Definition addChecklistItem {P} (this : TrelloClient)
  (text checkListName : string) (cardId boardId : optstring) (w : World P)
  : Settled CheckListItem * World P :=
  run (bind (fetch_checklists this cardId boardId)
            (fun checklists =>
               match find (same_name checkListName) checklists with
               | None => Throw (ThrownMcp (checklist_not_found checkListName cardId))
               | Some targetChecklist =>
                   Await (addChecklistItem_request
                            (checklist_id targetChecklist) text)
                     (fun r =>
                        match r with
                        | Fulfilled itemResponse =>
                            Return (convertToCheckListItem
                                      (check_item (response_data itemResponse))
                                      (checklist_id targetChecklist))
                        | Rejected error => Throw error
                        end)
               end)) w.

End Checklists.

(** Lower case of the ASCII letters, for the examples. *)
Definition ascii_lower (c : ascii) : ascii :=
  let n := Ascii.nat_of_ascii c in
  if ((65 <=? n) && (n <=? 90))%nat then Ascii.ascii_of_nat (n + 32) else c.

Fixpoint lower (s : string) : string :=
  match s with
  | EmptyString => EmptyString
  | String c rest => String (ascii_lower c) (lower rest)
  end.

(** A checklist with the given name and item names, all incomplete. *)
Definition checklist_named (id name : string) (item_names : list string)
  : TrelloChecklist :=
  mkChecklist id name
    (map (fun n => mkCheckItem ("item-" ++ n) n "incomplete") item_names).

(** *** Comments and labels *)

Definition deleteCommentFromCard_request (commentId : string) : AxiosRequest :=
  mkRequest DELETE ("/actions/" ++ commentId) [] None.

(** [deleteCommentFromCard(commentId)]: [response.status === 200]. *)
Definition deleteCommentFromCard {P} (fuel : nat) (commentId : string)
  (w : World P) : Run (World P) bool :=
  handle fuel
    (Await (deleteCommentFromCard_request commentId)
       (fun r =>
          match r with
          | Fulfilled response => Return (status response =? 200)
          | Rejected error => Throw error
          end)) w.

Definition deleteLabel_request (labelId : string) : AxiosRequest :=
  mkRequest DELETE ("/labels/" ++ labelId) [] None.

(** [deleteLabel(labelId)]: the response is not looked at. *)
Definition deleteLabel {P} (fuel : nat) (labelId : string) (w : World P)
  : Run (World P) bool :=
  handle fuel
    (Await (deleteLabel_request labelId)
       (fun r =>
          match r with
          | Fulfilled _ => Return true
          | Rejected error => Throw error
          end)) w.

Section Comments.

(** [encodeURIComponent] of the JavaScript library. *)
Variable encodeURIComponent : string -> string.

Definition updateCommentOnCard_request (commentId text : string)
  : AxiosRequest :=
  mkRequest PUT ("/actions/" ++ commentId ++ "?text=" ++ encodeURIComponent text)
            [] None.

(** [updateCommentOnCard(commentId, text)] *)
Definition updateCommentOnCard {P} (fuel : nat) (commentId text : string)
  (w : World P) : Run (World P) bool :=
  handle fuel
    (Await (updateCommentOnCard_request commentId text)
       (fun r =>
          match r with
          | Fulfilled response =>
              if negb (status response =? 200) then Return false
              else Return true
          | Rejected error => Throw error
          end)) w.

End Comments.

(** * Properties *)

(** ** The resilient execution layer *)

Lemma catch_clause_retry error :
  catch_clause error = None <-> throttled error = true.
Proof.
  unfold catch_clause, throttled.
  destruct (isAxiosError error), (status_is error 429); simpl;
    split; intro H; try reflexivity; discriminate H.
Qed.


Section ResilientExecutionFacts.

Context {W T : Type}.
Variable setTimeout : Z -> W -> W.
Variable requestFn : RequestFn W T.

Local Abbreviation handleRequest := (handleRequest setTimeout).
Local Abbreviation Settles := (Settles setTimeout).

(** Whatever the fuel, a call that settled did what [Settles] says. *)
Lemma handleRequest_sound fuel : forall w r,
  settled (handleRequest fuel requestFn w) = Some r ->
  Settles requestFn w r (world (handleRequest fuel requestFn w))
          (invocations (handleRequest fuel requestFn w)).
Proof.
  induction fuel as [|fuel IH]; intros w r; simpl.
  - discriminate.
  - destruct (requestFn w) as [[v|error] w1] eqn:Hreq.
    + simpl. intros [= <-]. now apply Settles_value.
    + destruct (catch_clause error) as [e|] eqn:Hcatch; simpl.
      * intros [= <-]. now apply Settles_throw with error.
      * intro Hs. eapply Settles_retry; eauto.
Qed.

(** A call that settles after [n] invocations is computed by any fuel
    that allows [n] invocations. *)
Lemma handleRequest_complete w r w' n :
  Settles requestFn w r w' n ->
  forall fuel, (n <= fuel)%nat ->
  handleRequest fuel requestFn w = mkRun (Some r) w' n.
Proof.
  induction 1 as [w v w1 Hreq | w error e w1 Hreq Hcatch
                 | w error w1 r w2 n Hreq Hcatch _ IH];
    intros [|fuel] Hle; try lia; simpl; rewrite Hreq.
  - reflexivity.
  - now rewrite Hcatch.
  - rewrite Hcatch, IH by lia. reflexivity.
Qed.

Lemma Settles_positive w r w' n :
  Settles requestFn w r w' n -> (1 <= n)%nat.
Proof. destruct 1; lia. Qed.

(** The execution is deterministic: it settles in one way at most. *)
Lemma Settles_deterministic w r1 w1 n1 r2 w2 n2 :
  Settles requestFn w r1 w1 n1 -> Settles requestFn w r2 w2 n2 ->
  r1 = r2 /\ w1 = w2 /\ n1 = n2.
Proof.
  intros H1 H2.
  pose proof (handleRequest_complete _ _ _ _ H1 (Nat.max n1 n2)
                ltac:(lia)) as E1.
  pose proof (handleRequest_complete _ _ _ _ H2 (Nat.max n1 n2)
                ltac:(lia)) as E2.
  rewrite E1 in E2. now inversion E2.
Qed.

(** Out of fuel means that every invocation allowed so far was made. *)
Lemma handleRequest_unsettled fuel : forall w,
  settled (handleRequest fuel requestFn w) = None ->
  invocations (handleRequest fuel requestFn w) = fuel.
Proof.
  induction fuel as [|fuel IH]; intros w; simpl; [reflexivity|].
  destruct (requestFn w) as [[v|error] w1]; simpl; [discriminate|].
  destruct (catch_clause error); simpl; [discriminate|].
  intro Hs. now rewrite IH.
Qed.

End ResilientExecutionFacts.

(** C1 amended.  An operation every invocation of which reports the
    throttling signal is invoked again after each attempt, after a wait of
    1000 ms, with no maximum attempt count: whatever the number of
    invocations allowed, all of them are made, each followed by that wait,
    and the call has still not settled, so that [handleRequest] never
    returns a value nor raises an error. *)
Theorem handleRequest_retries_throttled_forever
  {W T} (setTimeout : Z -> W -> W) (requestFn : RequestFn W T)
  (Hthrottled : forall w, exists error w1,
      requestFn w = (Rejected error, w1) /\ throttled error = true) :
  forall w,
    (forall fuel,
        settled (handleRequest setTimeout fuel requestFn w) = None /\
        invocations (handleRequest setTimeout fuel requestFn w) = fuel /\
        world (handleRequest setTimeout fuel requestFn w)
        = Nat.iter fuel (fun w => setTimeout 1000 (snd (requestFn w))) w) /\
    (forall r w' n, ~ Settles setTimeout requestFn w r w' n).
Proof.
  assert (Hnone : forall fuel w,
             settled (handleRequest setTimeout fuel requestFn w) = None).
  { induction fuel as [|fuel IH]; intro w; simpl; [reflexivity|].
    destruct (Hthrottled w) as (error & w1 & -> & Hth).
    apply catch_clause_retry in Hth. rewrite Hth. simpl. apply IH. }
  assert (Hworld : forall fuel w,
             world (handleRequest setTimeout fuel requestFn w)
             = Nat.iter fuel (fun w => setTimeout 1000 (snd (requestFn w))) w).
  { induction fuel as [|fuel IH]; intro w; [reflexivity|].
    rewrite Nat.iter_succ_r. cbn [handleRequest].
    destruct (Hthrottled w) as (error & w1 & -> & Hth).
    apply catch_clause_retry in Hth. rewrite Hth.
    cbn [one_more world snd]. apply IH. }
  intro w. split.
  - intro fuel. split; [apply Hnone|].
    split; [apply handleRequest_unsettled, Hnone|apply Hworld].
  - intros r w' n Hs.
    pose proof (handleRequest_complete _ _ _ _ _ _ Hs n (le_n n)) as E.
    specialize (Hnone n w). rewrite E in Hnone. discriminate.
Qed.

Lemma handleRequest_retries_throttled_forever_witness :
  settled (handleRequest logged_wait 3
             (fun w => (Rejected (T := Json) too_many_requests, w)) [])
  = None /\
  invocations (handleRequest logged_wait 3
                 (fun w => (Rejected (T := Json) too_many_requests, w)) [])
  = 3%nat /\
  world (handleRequest logged_wait 3
           (fun w => (Rejected (T := Json) too_many_requests, w)) [])
  = [1000; 1000; 1000].
Proof.
  refine (proj1 (handleRequest_retries_throttled_forever
                   logged_wait
                   (fun w => (Rejected (T := Json) too_many_requests, w))
                   _ [])
                3%nat).
  intro w. exists too_many_requests, w. split; reflexivity.
Defined.

(** C1, refuted on the code: an operation that answers 429 at every
    invocation, and no attempt count after which [handleRequest] stops with
    an error. *)
Lemma handleRequest_has_no_maximum_attempt_count :
  (forall w, exists w1,
      always (T := Json) (Rejected too_many_requests) w
      = (Rejected too_many_requests, w1)) /\
  throttled too_many_requests = true /\
  ~ exists maxAttempts error w',
      Settles no_wait (always (T := Json) (Rejected too_many_requests))
              0%nat (Rejected error) w' maxAttempts.
Proof.
  split; [intro w; now exists (S w)|]. split; [reflexivity|].
  intros (n & error & w' & Hs).
  pose proof (handleRequest_complete _ _ _ _ _ _ Hs n (le_n n)) as E.
  assert (Hnone : forall fuel w,
             settled (handleRequest no_wait fuel
                        (always (T := Json) (Rejected too_many_requests)) w)
             = None).
  { induction fuel as [|fuel IH]; intro w; simpl; [reflexivity|apply IH]. }
  specialize (Hnone n 0%nat). rewrite E in Hnone. discriminate.
Qed.

(** C3.  An operation that reports the throttling signal at its first two
    invocations and a value at the third is invoked exactly three times,
    and that value is what [handleRequest] returns: the call settles that
    way, and in no other way. *)
Theorem handleRequest_succeeds_at_third_attempt
  {W T} (setTimeout : Z -> W -> W) (requestFn : RequestFn W T)
  (w0 w1 w2 w3 : W) (e1 e2 : Thrown) (v : T)
  (H1 : requestFn w0 = (Rejected e1, w1)) (Ht1 : throttled e1 = true)
  (H2 : requestFn (setTimeout 1000 w1) = (Rejected e2, w2))
  (Ht2 : throttled e2 = true)
  (H3 : requestFn (setTimeout 1000 w2) = (Fulfilled v, w3)) :
  Settles setTimeout requestFn w0 (Fulfilled v) w3 3 /\
  (forall fuel, (3 <= fuel)%nat ->
     handleRequest setTimeout fuel requestFn w0
     = mkRun (Some (Fulfilled v)) w3 3) /\
  (forall r w' n, Settles setTimeout requestFn w0 r w' n ->
     r = Fulfilled v /\ n = 3%nat).
Proof.
  apply catch_clause_retry in Ht1, Ht2.
  assert (Hs : Settles setTimeout requestFn w0 (Fulfilled v) w3 3).
  { eapply Settles_retry; [exact H1|exact Ht1|].
    eapply Settles_retry; [exact H2|exact Ht2|].
    apply Settles_value, H3. }
  split; [exact Hs|]. split.
  - intros fuel Hle. now apply handleRequest_complete.
  - intros r w' n Hs'.
    destruct (Settles_deterministic _ _ _ _ _ _ _ _ _ Hs' Hs) as (-> & _ & ->).
    now split.
Qed.

Lemma handleRequest_succeeds_at_third_attempt_witness :
  handleRequest no_wait 5 (scripted (Rejected (JsError "script used up")))
    [Rejected too_many_requests; Rejected too_many_requests;
     Fulfilled (JStr "board")]
  = mkRun (Some (Fulfilled (JStr "board"))) [] 3.
Proof.
  refine (proj1 (proj2
    (handleRequest_succeeds_at_third_attempt no_wait
       (scripted (Rejected (JsError "script used up")))
       [Rejected too_many_requests; Rejected too_many_requests;
        Fulfilled (JStr "board")]
       [Rejected too_many_requests; Fulfilled (JStr "board")]
       [Fulfilled (JStr "board")] []
       too_many_requests too_many_requests (JStr "board")
       eq_refl eq_refl eq_refl eq_refl eq_refl)) 5%nat _).
  repeat constructor.
Defined.

(** C4.  An operation whose invocation is rejected by a 4xx answer other
    than 429 is invoked once and not again: [handleRequest] raises at once
    (no wait is made) an error whose message has the upstream status and
    whose data is the response body. *)
Theorem handleRequest_does_not_retry_invalid_request
  {W T} (setTimeout : Z -> W -> W) (requestFn : RequestFn W T)
  (w w1 : W) (msg : string) (response : AxiosResponse)
  (Hreq : requestFn w = (Rejected (AxiosError msg (Some response)), w1))
  (H4xx : 400 <= status response < 500)
  (Hnot429 : status response <> 429) :
  forall fuel,
    handleRequest setTimeout (S fuel) requestFn w
    = mkRun (Some (Rejected (ThrownMcp
               (mkMcpError InternalError
                  ("Trello API Error: " ++ Number_toString (status response)
                     ++ " " ++ msg)
                  (Some (response_data response))))))
            w1 1.
Proof.
  intro fuel. simpl. rewrite Hreq.
  unfold catch_clause, status_is. simpl.
  destruct (Z.eqb_spec (status response) 429) as [E|_]; [contradiction|].
  reflexivity.
Qed.

Lemma handleRequest_does_not_retry_invalid_request_witness :
  handleRequest no_wait 4
    (always (T := Json)
       (Rejected (AxiosError "Request failed with status code 404"
                    (Some (mkResponse 404 (JStr "board not found"))))))
    0%nat
  = mkRun (Some (Rejected (ThrownMcp
             (mkMcpError InternalError
                "Trello API Error: 404 Request failed with status code 404"
                (Some (JStr "board not found"))))))
          1%nat 1.
Proof.
  refine (handleRequest_does_not_retry_invalid_request no_wait
            (always (Rejected (AxiosError "Request failed with status code 404"
                       (Some (mkResponse 404 (JStr "board not found"))))))
            0%nat 1%nat "Request failed with status code 404"
            (mkResponse 404 (JStr "board not found")) eq_refl _ _ 3%nat).
  - simpl. lia.
  - simpl. lia.
Defined.




(** ** Admission before every upstream call *)

Lemma admitted_app a b :
  admitted a = true -> admitted b = true -> admitted (a ++ b)%list = true.
Proof.
  intros Ha Hb. induction a as [|ev a IH]; [exact Hb|].
  destruct ev; simpl in *; auto.
  destruct a as [|[] a]; try discriminate. simpl in *. auto.
Qed.

Lemma calls_app a b : calls (a ++ b)%list = (calls a + calls b)%nat.
Proof. unfold calls. now rewrite filter_app, length_app. Qed.

Lemma tokens_app a b : tokens (a ++ b)%list = (tokens a + tokens b)%nat.
Proof. unfold tokens. now rewrite filter_app, length_app. Qed.

Lemma iter_plus {A} (f : A -> A) n m x :
  Nat.iter (n + m) f x = Nat.iter n f (Nat.iter m f x).
Proof. induction n; simpl; congruence. Qed.

Lemma extends_refl {P} (w : World P) : extends w w [].
Proof. repeat split. Qed.

Lemma extends_trans {P} (w1 w2 w3 : World P) a b :
  extends w1 w2 a -> extends w2 w3 b -> extends w1 w3 (b ++ a)%list.
Proof.
  intros (Ht1 & Ha1 & Hc1 & Hl1) (Ht2 & Ha2 & Hc2 & Hl2).
  unfold extends. rewrite Ht2, Ht1, app_assoc, calls_app, tokens_app.
  repeat split.
  - now apply admitted_app.
  - lia.
  - now rewrite Hl2, Hl1, iter_plus.
Qed.

Lemma axiosInstance_extends {P} req (w : World P) :
  extends w (snd (axiosInstance req w)) [UpstreamCall req; TokenAcquired].
Proof.
  unfold axiosInstance, adapter, interceptor. simpl.
  destruct (upstream P req (server w)). repeat split.
Qed.

Lemma run_extends {P T} (p : Prog T) : forall w : World P,
  exists evs, extends w (snd (run p w)) evs.
Proof.
  induction p as [v|error|req k IH]; intro w; simpl.
  - exists []. apply extends_refl.
  - exists []. apply extends_refl.
  - pose proof (axiosInstance_extends req w) as H1.
    destruct (axiosInstance req w) as [r w1]. simpl in H1.
    destruct (IH r w1) as [evs H2].
    eexists. eapply extends_trans; eassumption.
Qed.

Lemma timeout_extends {P} ms (w : World P) :
  extends w (timeout ms w) [TimedOut ms].
Proof. repeat split. Qed.

Lemma handle_extends {P T} (body : Prog T) (fuel : nat) : forall w : World P,
  exists evs, extends w (world (handle fuel body w)) evs.
Proof.
  unfold handle.
  induction fuel as [|fuel IH]; intro w; simpl.
  - exists []. apply extends_refl.
  - destruct (run_extends body w) as [evs1 H1].
    destruct (run body w) as [[v|error] w1]; simpl in *.
    + now exists evs1.
    + destruct (catch_clause error); simpl.
      * now exists evs1.
      * destruct (IH (timeout 1000 w1)) as [evs2 H2].
        eexists. eapply extends_trans; [exact H1|].
        eapply extends_trans; [apply timeout_extends|exact H2].
Qed.

(** C6.  Whatever the request function does and however many times
    [handleRequest] retries it, every upstream call of the execution, the
    retried ones included, is made right after [waitForAvailableToken] was
    awaited by the request interceptor: in the trace each call follows a
    token, there are as many tokens as calls, and the limiter has been
    through one acquisition per call. *)
Theorem every_attempt_acquires_a_token
  {P T} (body : Prog T) (fuel : nat) (w : World P) :
  exists evs,
    trace (world (handle fuel body w)) = (evs ++ trace w)%list /\
    admitted evs = true /\
    tokens evs = calls evs /\
    limiter (world (handle fuel body w))
    = Nat.iter (calls evs) (waitForAvailableToken P) (limiter w).
Proof.
  destruct (handle_extends body fuel w) as (evs & Htrace & Hadm & Hcount & Hlim).
  exists evs. repeat split; assumption.
Qed.

Example retry_acquires_a_token_again :
  trace (world (handle 5
                  (return_data (mkRequest GET "/members/me/boards" [] None))
                  (scripted_world true
                     [Rejected too_many_requests;
                      Fulfilled (mkResponse 200 (JArr []))])))
  = [UpstreamCall (mkRequest GET "/members/me/boards" [] None);
     TokenAcquired;
     TimedOut 1000;
     UpstreamCall (mkRequest GET "/members/me/boards" [] None);
     TokenAcquired].
Proof. reflexivity. Qed.

(** ** Which board a method works on *)

Lemma effectiveBoardId_first_present this boardId' :
  truthy (effectiveBoardId this boardId')
  = truthy (first_present [boardId'; boardId (activeConfig this);
                           this_defaultBoardId this]) /\
  (truthy (effectiveBoardId this boardId') = true ->
   effectiveBoardId this boardId'
   = first_present [boardId'; boardId (activeConfig this);
                    this_defaultBoardId this]).
Proof.
  unfold effectiveBoardId, or_else. simpl.
  destruct (truthy boardId') eqn:E1; rewrite ?E1.
  - now split.
  - destruct (truthy (boardId (activeConfig this))) eqn:E2; rewrite ?E2.
    + now split.
    + destruct (truthy (this_defaultBoardId this)) eqn:E3; rewrite ?E3;
        now split.
Qed.

Lemma first_present_truthy ids id :
  first_present ids = Some id -> truthy (Some id) = true.
Proof.
  induction ids as [|x ids IH]; simpl; [discriminate|].
  destruct (truthy x) eqn:E; [intros ->; exact E|exact IH].
Qed.

Lemma first_present_None ids :
  first_present ids = None -> truthy (first_present ids) = false.
Proof. now intros ->. Qed.

Lemma call_method_unfold {P} m fuel this boardId' (w : World P) :
  call_method m fuel this boardId' w
  = if negb (truthy (effectiveBoardId this boardId'))
    then throws boardId_required w
    else handle fuel
           (return_data
              (request_of m (narrowed (effectiveBoardId this boardId'))))
           w.
Proof. destruct m; reflexivity. Qed.

Lemma run_return_data {P} req (w : World P) :
  run (return_data req) w
  = match axiosInstance req w with
    | (Fulfilled response, w1) => (Fulfilled (response_data response), w1)
    | (Rejected error, w1) => (Rejected error, w1)
    end.
Proof.
  simpl. now destruct (axiosInstance req w) as [[response|error] w1].
Qed.

Lemma handle_S {P T} fuel (body : Prog T) (w : World P) :
  handle (S fuel) body w
  = match run body w with
    | (Fulfilled v, w1) => mkRun (Some (Fulfilled v)) w1 1
    | (Rejected error, w1) =>
        match catch_clause error with
        | None => one_more (handle fuel body (timeout 1000 w1))
        | Some e => mkRun (Some (Rejected (ThrownMcp e))) w1 1
        end
    end.
Proof. reflexivity. Qed.

Lemma handle_return_data_first_call {P} fuel req (w : World P) :
  exists evs,
    trace (world (handle (S fuel) (return_data req) w))
    = (evs ++ [UpstreamCall req; TokenAcquired] ++ trace w)%list.
Proof.
  rewrite handle_S, run_return_data.
  pose proof (axiosInstance_extends req w) as (Ht & _).
  destruct (axiosInstance req w) as [[response|error] w1]; simpl in Ht.
  - now exists [].
  - destruct (catch_clause error).
    + now exists [].
    + destruct (handle_extends (return_data req) fuel (timeout 1000 w1))
        as (evs & Hevs & _).
      cbn [one_more world]. rewrite Hevs. cbn [timeout trace]. rewrite Ht.
      exists (evs ++ [TimedOut 1000])%list. now rewrite <- app_assoc.
Qed.

(** C8.  For each of [getLists], [getRecentActivity], [addList],
    [getBoardMembers], [getBoardLabels] and [createLabel]: when the
    [boardId] argument, the active board and the default board are all
    absent (undefined, or the empty string, which JavaScript takes for
    absent as well), the method raises
    [McpError(InvalidParams, 'boardId is required when no default board is
    configured')] and leaves the world as it found it, no request made;
    otherwise it works on the first one present, in the order argument,
    active board, default board: it is the execution by [handleRequest] of
    its request with the id of that board in it (in the path, or as
    [idBoard] in the body for [addList]), and that request is the first
    thing sent upstream. *)
Theorem board_methods_use_first_present_board
  {P} (m : BoardMethod) (fuel : nat) (this : TrelloClient)
  (boardId' : optstring) (w : World P) :
  let request (id : string) : AxiosRequest :=
    match m with
    | GetLists => mkRequest GET ("/boards/" ++ id ++ "/lists") [] None
    | GetRecentActivity limit =>
        mkRequest GET ("/boards/" ++ id ++ "/actions")
          [("limit", JNum (match limit with Some l => l | None => 10 end))]
          None
    | AddList name =>
        mkRequest POST "/lists" []
          (Some (JObj [("name", JStr name); ("idBoard", JStr id)]))
    | GetBoardMembers => mkRequest GET ("/boards/" ++ id ++ "/members") [] None
    | GetBoardLabels => mkRequest GET ("/boards/" ++ id ++ "/labels") [] None
    | CreateLabel name color =>
        mkRequest POST ("/boards/" ++ id ++ "/labels") []
          (Some (JObj (("name", JStr name)
                       :: match color with
                          | Some c => [("color", JStr c)]
                          | None => []
                          end)))
    end in
  (truthy boardId' = false /\
   truthy (boardId (activeConfig this)) = false /\
   truthy (this_defaultBoardId this) = false ->
   call_method m fuel this boardId' w
   = mkRun (Some (Rejected (ThrownMcp
              (mkMcpError InvalidParams
                 "boardId is required when no default board is configured"
                 None))))
           w 0 /\
   calls (trace (world (call_method m fuel this boardId' w)))
   = calls (trace w)) /\
  (forall id,
     first_present [boardId'; boardId (activeConfig this);
                    this_defaultBoardId this] = Some id ->
     call_method m fuel this boardId' w
     = handle fuel (return_data (request id)) w /\
     (fuel <> 0%nat ->
      exists evs,
        trace (world (call_method m fuel this boardId' w))
        = (evs ++ [UpstreamCall (request id); TokenAcquired]
               ++ trace w)%list)).
Proof.
  intro request.
  assert (Hrequest : forall id, request_of m id = request id).
  { intro id. unfold request. now destruct m. }
  clearbody request. rewrite call_method_unfold.
  destruct (effectiveBoardId_first_present this boardId') as [Ht Heq].
  split.
  - intros (H1 & H2 & H3).
    assert (E : truthy (effectiveBoardId this boardId') = false).
    { rewrite Ht. simpl. now rewrite H1, H2, H3. }
    rewrite E. simpl. now split.
  - intros id Hid. rewrite <- (Hrequest id).
    assert (E : truthy (effectiveBoardId this boardId') = true).
    { rewrite Ht, Hid. eapply first_present_truthy, Hid. }
    rewrite E. simpl. rewrite (Heq E), Hid. simpl.
    split; [reflexivity|].
    intro Hfuel. destruct fuel as [|fuel]; [contradiction|].
    apply handle_return_data_first_call.
Qed.

Lemma board_methods_use_first_present_board_witness :
  call_method GetLists 5
    (constructor (mkConfig "key" "token" (Some "dflt") None None)) (Some "")
    (scripted_world true [Fulfilled (mkResponse 200 (JArr []))])
  = handle 5 (return_data (mkRequest GET "/boards/dflt/lists" [] None))
      (scripted_world true [Fulfilled (mkResponse 200 (JArr []))]) /\
  call_method (AddList "Doing") 5
    (constructor (mkConfig "key" "token" None None None)) None
    (scripted_world true [])
  = mkRun (Some (Rejected (ThrownMcp
             (mkMcpError InvalidParams
                "boardId is required when no default board is configured"
                None))))
          (scripted_world true []) 0.
Proof.
  split.
  - exact (proj1 (proj2 (board_methods_use_first_present_board GetLists 5
             (constructor (mkConfig "key" "token" (Some "dflt") None None))
             (Some "")
             (scripted_world true [Fulfilled (mkResponse 200 (JArr []))]))
           "dflt" eq_refl)).
  - exact (proj1 (proj1 (board_methods_use_first_present_board
             (AddList "Doing") 5
             (constructor (mkConfig "key" "token" None None None)) None
             (scripted_world true []))
           (conj eq_refl (conj eq_refl eq_refl)))).
Defined.

Example getLists_without_board :
  getLists 5 (constructor (mkConfig "key" "token" None None None)) None
           (scripted_world true [])
  = mkRun (Some (Rejected (ThrownMcp
             (mkMcpError InvalidParams
                "boardId is required when no default board is configured"
                None))))
          (scripted_world true []) 0.
Proof. reflexivity. Qed.

Example getLists_empty_argument_falls_back :
  trace (world
    (getLists 5 (constructor (mkConfig "key" "token" (Some "dflt") None None))
       (Some "")
       (scripted_world true [Fulfilled (mkResponse 200 (JArr []))])))
  = [UpstreamCall (mkRequest GET "/boards/dflt/lists" [] None);
     TokenAcquired].
Proof. reflexivity. Qed.

Example createLabel_on_the_active_board :
  trace (world
    (createLabel 5
       (constructor (mkConfig "key" "token" (Some "dflt") (Some "active")
                              None))
       None "urgent" (Some "red")
       (scripted_world true [Fulfilled (mkResponse 200 JNull)])))
  = [UpstreamCall
       (mkRequest POST "/boards/active/labels" []
          (Some (JObj [("name", JStr "urgent"); ("color", JStr "red")])));
     TokenAcquired].
Proof. reflexivity. Qed.

(** ** [setActiveBoard] *)

Lemma saveConfig_outcome {P} this (w : World P) :
  (save_succeeds this w = true ->
   fst (saveConfig this w) = Fulfilled tt /\
   trace (snd (saveConfig this w))
   = ConfigWritten (configToSave this) :: trace w) /\
  (save_succeeds this w = false ->
   fst (saveConfig this w) = Rejected save_failed /\
   trace (snd (saveConfig this w)) = trace w).
Proof.
  unfold save_succeeds, saveConfig.
  destruct (fs_mkdir P (fs w)) as [[|] fs1]; simpl.
  - destruct (fs_writeFile P (configToSave this) fs1) as [[|] fs2]; simpl;
      split; intro H; try discriminate H; now split.
  - split; intro H; try discriminate H; now split.
Qed.

(** C9 amended.  [setActiveBoard] first fetches the board.  When the fetch
    fails, the call fails with it and the client is unchanged (active board
    and active workspace included), and nothing is written.  When it
    succeeds, the active board id is the given one, and the active
    workspace id, the credentials and the default board are unchanged;
    the fetched board is returned provided that saving the configuration
    succeeds, and when saving fails the call raises
    [Error('Failed to save configuration')] instead. *)
Theorem setActiveBoard_sets_only_the_active_board
  {P} (fuel : nat) (this : TrelloClient) (boardId' : string) (w : World P) :
  (forall error,
      settled (getBoardById fuel boardId' w) = Some (Rejected error) ->
      setActiveBoard fuel this boardId' w
      = (this, getBoardById fuel boardId' w)) /\
  (forall board,
      settled (getBoardById fuel boardId' w) = Some (Fulfilled board) ->
      boardId (activeConfig (fst (setActiveBoard fuel this boardId' w)))
      = Some boardId' /\
      workspaceId (activeConfig (fst (setActiveBoard fuel this boardId' w)))
      = workspaceId (activeConfig this) /\
      apiKey (activeConfig (fst (setActiveBoard fuel this boardId' w)))
      = apiKey (activeConfig this) /\
      token (activeConfig (fst (setActiveBoard fuel this boardId' w)))
      = token (activeConfig this) /\
      config (fst (setActiveBoard fuel this boardId' w)) = config this /\
      this_defaultBoardId (fst (setActiveBoard fuel this boardId' w))
      = this_defaultBoardId this /\
      (save_succeeds (fst (setActiveBoard fuel this boardId' w))
                     (world (getBoardById fuel boardId' w)) = true ->
       settled (snd (setActiveBoard fuel this boardId' w))
       = Some (Fulfilled board)) /\
      (save_succeeds (fst (setActiveBoard fuel this boardId' w))
                     (world (getBoardById fuel boardId' w)) = false ->
       settled (snd (setActiveBoard fuel this boardId' w))
       = Some (Rejected save_failed))).
Proof.
  unfold setActiveBoard. split.
  - intros error ->. reflexivity.
  - intros board ->.
    set (this' := mkClient _ _ _).
    pose proof (saveConfig_outcome this' (world (getBoardById fuel boardId' w)))
      as [Hok Hko].
    destruct (saveConfig this' (world (getBoardById fuel boardId' w)))
      as [[u|error] w'] eqn:Hsave; simpl in *.
    + do 6 (split; [reflexivity|]). split; [reflexivity|].
      intro Hf. destruct (Hko Hf) as [Habs _]. discriminate Habs.
    + do 6 (split; [reflexivity|]). split.
      * intro Ht. destruct (Hok Ht) as [Habs _]. discriminate Habs.
      * intro Hf. destruct (Hko Hf) as [[= ->] _]. reflexivity.
Qed.

Lemma setActiveBoard_sets_only_the_active_board_witness :
  boardId (activeConfig (fst (setActiveBoard 1
     (constructor (mkConfig "key" "token" None None (Some "ws"))) "b1"
     (scripted_world true
        [Fulfilled (mkResponse 200 (JObj [("id", JStr "b1")]))]))))
  = Some "b1" /\
  workspaceId (activeConfig (fst (setActiveBoard 1
     (constructor (mkConfig "key" "token" None None (Some "ws"))) "b1"
     (scripted_world true
        [Fulfilled (mkResponse 200 (JObj [("id", JStr "b1")]))]))))
  = Some "ws" /\
  settled (snd (setActiveBoard 1
     (constructor (mkConfig "key" "token" None None (Some "ws"))) "b1"
     (scripted_world true
        [Fulfilled (mkResponse 200 (JObj [("id", JStr "b1")]))])))
  = Some (Fulfilled (JObj [("id", JStr "b1")])).
Proof.
  destruct (proj2 (setActiveBoard_sets_only_the_active_board 1
              (constructor (mkConfig "key" "token" None None (Some "ws")))
              "b1"
              (scripted_world true
                 [Fulfilled (mkResponse 200 (JObj [("id", JStr "b1")]))]))
            (JObj [("id", JStr "b1")]) eq_refl)
    as (Hb & Hw & _ & _ & _ & _ & Hok & _).
  split; [exact Hb|]. split; [exact Hw|]. exact (Hok eq_refl).
Defined.

(** C9, refuted on the code: the board is fetched and the active board is
    set, but the disk refuses the write, and the call raises instead of
    returning the fetched board. *)
Lemma setActiveBoard_raises_when_saving_fails :
  settled (getBoardById 1 "b1"
             (scripted_world false
                [Fulfilled (mkResponse 200 (JObj [("id", JStr "b1")]))]))
  = Some (Fulfilled (JObj [("id", JStr "b1")])) /\
  settled (snd (setActiveBoard 1
                  (constructor (mkConfig "key" "token" None None (Some "ws")))
                  "b1"
                  (scripted_world false
                     [Fulfilled (mkResponse 200 (JObj [("id", JStr "b1")]))])))
  = Some (Rejected (JsError "Failed to save configuration")) /\
  boardId (activeConfig (fst (setActiveBoard 1
                  (constructor (mkConfig "key" "token" None None (Some "ws")))
                  "b1"
                  (scripted_world false
                     [Fulfilled (mkResponse 200 (JObj [("id", JStr "b1")]))]))))
  = Some "b1".
Proof. repeat split. Qed.

Example setActiveBoard_returns_the_board :
  setActiveBoard 1
    (constructor (mkConfig "key" "token" None None (Some "ws"))) "b1"
    (scripted_world true
       [Fulfilled (mkResponse 200 (JObj [("id", JStr "b1")]))])
  = (mkClient (mkConfig "key" "token" None None (Some "ws")) None
              (mkConfig "key" "token" None (Some "b1") (Some "ws")),
     mkRun (Some (Fulfilled (JObj [("id", JStr "b1")])))
           (mkWorld (P := scripted_platform true) [] 1%nat
              [JObj [("boardId", JStr "b1"); ("workspaceId", JStr "ws")]]
              [ConfigWritten
                 (JObj [("boardId", JStr "b1"); ("workspaceId", JStr "ws")]);
               UpstreamCall (mkRequest GET "/boards/b1" [] None);
               TokenAcquired])
           1).
Proof. reflexivity. Qed.

(** ** The quota of a rate window *)

Import RateLimiter.

Lemma within_cons lo hi t ts :
  within lo hi (t :: ts)
  = ((if between lo hi t then 1 else 0) + within lo hi ts)%nat.
Proof. unfold within. simpl. now destruct (between lo hi t). Qed.

Lemma within_le_later lo hi ts : (within lo hi ts <= later lo ts)%nat.
Proof.
  unfold within, later, between. induction ts as [|t ts IH]; simpl; [lia|].
  destruct (lo <? t); simpl; [|exact IH].
  destruct (t <=? hi); simpl; lia.
Qed.

Lemma later_antitone lo lo' ts :
  lo <= lo' -> (later lo' ts <= later lo ts)%nat.
Proof.
  intro Hle. unfold later. induction ts as [|t ts IH]; simpl; [lia|].
  destruct (Z.ltb_spec lo' t), (Z.ltb_spec lo t); simpl; lia.
Qed.

Lemma within_eq_later lo hi ts :
  Forall (fun t => t <= hi) ts -> within lo hi ts = later lo ts.
Proof.
  unfold within, later, between.
  induction 1 as [|t ts Ht _ IH]; simpl; [reflexivity|].
  destruct (lo <? t); simpl; [|exact IH].
  destruct (Z.leb_spec t hi); [|lia]. simpl. now rewrite IH.
Qed.

Lemma later_filter lo lo' (ts : list Z) :
  lo <= lo' -> later lo' (filter (fun t => lo <? t) ts) = later lo' ts.
Proof.
  intro Hle. unfold later. induction ts as [|t ts IH]; simpl; [reflexivity|].
  destruct (Z.ltb_spec lo t); simpl.
  - destruct (lo' <? t); simpl; now rewrite IH.
  - destruct (Z.ltb_spec lo' t); [lia|exact IH].
Qed.

Lemma later_app lo (a b : list Z) :
  later lo (a ++ b)%list = (later lo a + later lo b)%nat.
Proof. unfold later. now rewrite filter_app, length_app. Qed.

Lemma later_cons lo t ts :
  later lo (t :: ts) = ((if (lo <? t)%Z then 1 else 0) + later lo ts)%nat.
Proof. unfold later. simpl. now destruct (lo <? t). Qed.

Lemma Forall_le_weaken (ts : list Z) a b :
  a <= b -> Forall (fun t => t <= a) ts -> Forall (fun t => t <= b) ts.
Proof. intros Hab H. eapply Forall_impl; [|exact H]. simpl. lia. Qed.

Lemma agrees_later w hist clock now :
  clock <= now -> agrees w hist clock -> agrees w hist now.
Proof.
  intros Hle [H1 H2 H3 H4]. split.
  - eapply Forall_le_weaken; eassumption.
  - eapply Forall_le_weaken; eassumption.
  - intros now' Hnow'. apply H3. lia.
  - exact H4.
Qed.

Lemma agrees_prune w hist clock now :
  clock <= now -> agrees w hist clock -> agrees (prune now w) hist now.
Proof.
  intros Hle [H1 H2 H3 H4]. split; simpl.
  - apply Forall_le_weaken with clock; [exact Hle|].
    apply Forall_forall. intros t Ht. apply filter_In in Ht.
    rewrite Forall_forall in H1. now apply H1.
  - eapply Forall_le_weaken; eassumption.
  - intros now' Hnow'. rewrite later_filter by lia. apply H3. lia.
  - exact H4.
Qed.

Lemma agrees_record w hist now :
  agrees w hist now -> spare now w = true ->
  agrees (record now w) (now :: hist) now.
Proof.
  intros [H1 H2 H3 H4] Hspare. split; simpl.
  - apply Forall_app. split; [exact H1|]. constructor; [lia|constructor].
  - constructor; [lia|exact H2].
  - intros now' Hnow'. rewrite later_app, H3, !later_cons by exact Hnow'.
    unfold later. simpl. lia.
  - intro t. rewrite within_cons.
    destruct (between (t - duration w) t now) eqn:Hb; [|apply H4].
    unfold between in Hb. apply andb_prop in Hb. destruct Hb as [Hlo Hhi].
    apply Z.ltb_lt in Hlo. apply Z.leb_le in Hhi.
    unfold spare in Hspare. apply Nat.ltb_lt in Hspare.
    rewrite (within_eq_later _ _ _ H1), (H3 now (Z.le_refl now)) in Hspare.
    pose proof (within_le_later (t - duration w) t hist).
    pose proof (later_antitone (now - duration w) (t - duration w) hist
                  ltac:(lia)).
    lia.
Qed.

(** What [tryConsumeBoth] does to the two windows. *)
Lemma tryConsumeBoth_cases now app user :
  (tryConsumeBoth now app user
   = (Granted, (record now (prune now app), record now (prune now user))) /\
   spare now (prune now app) = true /\ spare now (prune now user) = true) \/
  (exists t, tryConsumeBoth now app user
             = (Refused t, (prune now app, prune now user))).
Proof.
  unfold tryConsumeBoth, tryConsume.
  destruct (spare now (prune now app)), (spare now (prune now user)).
  - left. repeat split.
  - right. eexists. reflexivity.
  - right. eexists. reflexivity.
  - right. eexists. reflexivity.
Qed.

Lemma step_agrees l clock now op :
  clock <= now -> limiter_agrees l clock -> limiter_agrees (step l (now, op)) now.
Proof.
  intros Hle [Ha Hu].
  assert (Hstay : limiter_agrees l now).
  { split; eapply agrees_later; eassumption. }
  pose proof (agrees_prune _ _ _ _ Hle Ha) as Hpa.
  pose proof (agrees_prune _ _ _ _ Hle Hu) as Hpu.
  destruct op as [| |h]; simpl.
  - unfold acquire. destruct (waitQueue l) as [|p q]; [|exact Hstay].
    destruct (tryConsumeBoth_cases now (appWindow l) (userWindow l))
      as [(-> & Sa & Su)|[t ->]]; split; simpl;
      auto using agrees_record.
  - unfold notifyCapacityMayBeAvailable.
    destruct (waitQueue l) as [|p q]; [exact Hstay|].
    destruct (tryConsumeBoth_cases now (appWindow l) (userWindow l))
      as [(-> & Sa & Su)|[t ->]]; split; simpl;
      auto using agrees_record.
  - unfold cancel. destruct (waiting h l); exact Hstay.
Qed.

Lemma interleave_agrees events : forall l clock,
  chronological clock events -> limiter_agrees l clock ->
  exists clock', limiter_agrees (interleave events l) clock'.
Proof.
  induction events as [|[now op] events IH]; intros l clock Hchron Hl.
  - now exists clock.
  - destruct Hchron as [Hle Hchron]. simpl.
    eapply IH; [exact Hchron|]. now apply step_agrees with clock.
Qed.

Lemma createLimiter_agrees appCapacity appDuration userCapacity userDuration
  clock :
  limiter_agrees
    (createLimiter appCapacity appDuration userCapacity userDuration) clock.
Proof.
  split; split; simpl; try apply Forall_nil; intros; unfold within; simpl; lia.
Qed.

Lemma interleave_windows events : forall l,
  capacity (appWindow (interleave events l)) = capacity (appWindow l) /\
  duration (appWindow (interleave events l)) = duration (appWindow l) /\
  capacity (userWindow (interleave events l)) = capacity (userWindow l) /\
  duration (userWindow (interleave events l)) = duration (userWindow l).
Proof.
  induction events as [|[now op] events IH]; intro l; [now repeat split|].
  change (interleave ((now, op) :: events) l)
    with (interleave events (step l (now, op))).
  destruct (IH (step l (now, op))) as (-> & -> & -> & ->).
  destruct op as [| |h]; simpl.
  - unfold acquire. destruct (waitQueue l); [|now repeat split].
    destruct (tryConsumeBoth_cases now (appWindow l) (userWindow l))
      as [(-> & _)|[t ->]]; now repeat split.
  - unfold notifyCapacityMayBeAvailable.
    destruct (waitQueue l); [now repeat split|].
    destruct (tryConsumeBoth_cases now (appWindow l) (userWindow l))
      as [(-> & _)|[t ->]]; now repeat split.
  - unfold cancel. destruct (waiting h l); now repeat split.
Qed.

(** C2.  Whatever the capacities and durations of the two windows, and
    whatever the interleaving of the callers' operations in time order, the
    admissions whose timestamps lie within a trailing interval
    [(t - D, t]] of the length of a window never outnumber the capacity of
    that window, for any [t]. *)
Theorem quota_never_exceeded
  (appCapacity : nat) (appDuration : Z) (userCapacity : nat)
  (userDuration : Z) (clock : Z) (events : list (Z * Op))
  (Hchron : chronological clock events) :
  forall t,
    (within (t - appDuration) t
       (admissions (journal (interleave events
          (createLimiter appCapacity appDuration userCapacity userDuration))))
     <= appCapacity)%nat /\
    (within (t - userDuration) t
       (admissions (journal (interleave events
          (createLimiter appCapacity appDuration userCapacity userDuration))))
     <= userCapacity)%nat.
Proof.
  intro t.
  destruct (interleave_agrees events _ clock Hchron
              (createLimiter_agrees appCapacity appDuration userCapacity
                 userDuration clock)) as (clock' & Ha & Hu).
  destruct (interleave_windows events
              (createLimiter appCapacity appDuration userCapacity userDuration))
    as (Ca & Da & Cu & Du).
  simpl in Ca, Da, Cu, Du.
  pose proof (quota _ _ _ Ha t) as Qa.
  pose proof (quota _ _ _ Hu t) as Qu.
  rewrite Ca, Da in Qa. rewrite Cu, Du in Qu. now split.
Qed.

(** The scenario of the specification: five callers at [t = 0] are
    admitted at once; the sixth waits, is still refused at 9.999 s and is
    admitted at 10 s. *)
Example six_callers_on_five_slots :
  journal (interleave six_callers (createLimiter 5 10000 5 10000))
  = [AdmittedAt 5 10000; Suspended 5 0; AdmittedAt 4 0; AdmittedAt 3 0;
     AdmittedAt 2 0; AdmittedAt 1 0; AdmittedAt 0 0].
Proof. reflexivity. Qed.

Lemma quota_never_exceeded_witness :
  (within (10000 - 10000) 10000
     (admissions (journal (interleave six_callers
                             (createLimiter 5 10000 5 10000))))
   <= 5)%nat /\
  (within (10000 - 10000) 10000
     (admissions (journal (interleave six_callers
                             (createLimiter 5 10000 5 10000))))
   <= 5)%nat.
Proof.
  refine (quota_never_exceeded 5 10000 5 10000 0 six_callers _ 10000).
  simpl. lia.
Defined.

(** The trailing interval is open at its old end, as [tryConsume] counts:
    over the closed interval [[t - D, t]] a window of capacity 1 can hold
    two admissions, one at each end. *)
Example quota_interval_is_half_open :
  admissions (journal (interleave [(0, Acquire); (10, Acquire)]
                         (createLimiter 1 10 1 10)))
  = [10; 0] /\
  List.length (filter (fun t => (10 - 10 <=? t) && (t <=? 10)) [10; 0])
  = 2%nat.
Proof. split; reflexivity. Qed.

(** ** The order of admission *)














(** *** A notification admits the head exactly when a slot is free *)







(** *** No waiter is starved *)










Example late_arrival_queues_behind_the_waiter :
  journal (interleave four_callers (createLimiter 1 10 1 10))
  = [AdmittedAt 2 20; Suspended 3 10; AdmittedAt 1 10; Suspended 2 5;
     Suspended 1 0; AdmittedAt 0 0] /\
  tickets (waitQueue (interleave four_callers (createLimiter 1 10 1 10)))
  = [3%nat].
Proof. split; reflexivity. Qed.


(** A notification that does nothing would leave the sixth caller of the
    scenario waiting for ever; here the one at 10 s admits it, and only
    it. *)
Example notification_admits_the_waiter :
  let l := interleave [(0, Acquire); (0, Acquire); (0, Acquire);
                       (0, Acquire); (0, Acquire); (0, Acquire)]
             (createLimiter 5 10000 5 10000) in
  tickets (waitQueue l) = [5%nat] /\
  journal (notifyCapacityMayBeAvailable 9999 l) = journal l /\
  journal (notifyCapacityMayBeAvailable 10000 l)
  = AdmittedAt 5 10000 :: journal l /\
  waitQueue (notifyCapacityMayBeAvailable 10000 l) = [].
Proof. repeat split. Qed.

(** ** The percentage of a checklist *)

Lemma digits2_bounds p :
  2 ^ (Zpos (digits2_pos p) - 1) <= Zpos p < 2 ^ Zpos (digits2_pos p).
Proof.
  induction p as [p IH|p IH|]; simpl digits2_pos.
  - rewrite Pos2Z.inj_succ.
    replace (Z.succ (Zpos (digits2_pos p)) - 1) with (Z.succ (Zpos (digits2_pos p) - 1)) by lia.
    rewrite !Z.pow_succ_r by lia. lia.
  - rewrite Pos2Z.inj_succ.
    replace (Z.succ (Zpos (digits2_pos p)) - 1) with (Z.succ (Zpos (digits2_pos p) - 1)) by lia.
    rewrite !Z.pow_succ_r by lia. lia.
  - simpl. lia.
Qed.

Lemma digits2_unique p k :
  2 ^ (k - 1) <= Zpos p < 2 ^ k -> Zpos (digits2_pos p) = k.
Proof.
  intros [Hlo Hhi]. pose proof (digits2_bounds p) as [Blo Bhi].
  assert (0 < k).
  { destruct (Z.ltb_spec 0 k); [assumption|].
    destruct (Z.eq_dec k 0) as [->|]; [simpl in Hhi; lia|].
    rewrite Z.pow_neg_r in Hhi by lia. lia. }
  destruct (Z.lt_trichotomy (Zpos (digits2_pos p)) k) as [Hlt|[Heq|Hgt]];
    [|exact Heq|].
  - assert (2 ^ Zpos (digits2_pos p) <= 2 ^ (k - 1))
      by (apply Z.pow_le_mono_r; lia). lia.
  - assert (2 ^ k <= 2 ^ (Zpos (digits2_pos p) - 1))
      by (apply Z.pow_le_mono_r; lia). lia.
Qed.

Lemma digits2_upper p k : 0 <= k -> Zpos p < 2 ^ k -> Zpos (digits2_pos p) <= k.
Proof.
  intros Hk Hp. pose proof (digits2_bounds p) as [Blo _].
  destruct (Z.leb_spec (Zpos (digits2_pos p)) k); [assumption|].
  assert (2 ^ k <= 2 ^ (Zpos (digits2_pos p) - 1))
    by (apply Z.pow_le_mono_r; lia). lia.
Qed.


Lemma shr_1_shifted mrs : 0 <= shr_m mrs -> shifted 1 mrs (shr_1 mrs).
Proof.
  destruct mrs as [m r s]. unfold shifted, lossless.
  cbn [shr_m]. intro Hm. change (2 ^ 1) with 2.
  destruct m as [|[p|p|]|p]; cbn [shr_1 shr_m shr_r shr_s]; try lia.
  - split; [reflexivity|]. intros [-> ->] _. now split.
  - split.
    + rewrite (Pos2Z.inj_xI p). apply Z.div_unique with 1; lia.
    + intros _ H. rewrite (Pos2Z.inj_xI p) in H.
      rewrite Z.add_comm, Z.mul_comm, Z_mod_plus_full in H. discriminate H.
  - split.
    + rewrite (Pos2Z.inj_xO p). apply Z.div_unique with 0; lia.
    + intros [-> ->] _. now split.
  - split; [reflexivity|]. intros _ H. discriminate H.
Qed.

Lemma shifted_trans a b x y z :
  0 <= a -> 0 <= b -> 0 <= shr_m x ->
  shifted a x y -> shifted b y z -> shifted (a + b) x z.
Proof.
  intros Ha Hb Hx [H1 E1] [H2 E2]. split.
  - rewrite H2, H1, Z.pow_add_r by lia. apply Z.div_div; lia.
  - intros Hex Hmod.
    assert (P1 : 0 < 2 ^ a) by (apply Z.pow_pos_nonneg; lia).
    assert (P2 : 0 < 2 ^ b) by (apply Z.pow_pos_nonneg; lia).
    rewrite Z.pow_add_r in Hmod by lia.
    apply Z.mod_divide in Hmod; [|lia]. destruct Hmod as [q Hq].
    apply E2.
    + apply E1; [exact Hex|]. apply Z.mod_divide; [lia|].
      exists (q * 2 ^ b). lia.
    + rewrite H1. apply Z.mod_divide; [lia|]. exists q.
      rewrite Hq. replace (q * (2 ^ a * 2 ^ b)) with (q * 2 ^ b * 2 ^ a) by lia.
      now rewrite Z.div_mul by lia.
Qed.

Lemma shifted_nonneg k a b : 0 <= k -> 0 <= shr_m a -> shifted k a b -> 0 <= shr_m b.
Proof.
  intros Hk Ha [H _]. rewrite H. apply Z.div_pos; [lia|]. apply Z.pow_pos_nonneg; lia.
Qed.

Lemma iter_pos_shifted p : forall mrs,
  0 <= shr_m mrs -> shifted (Zpos p) mrs (iter_pos shr_1 p mrs).
Proof.
  induction p as [p IH|p IH|]; intros mrs Hm; cbn [iter_pos].
  - rewrite Pos2Z.inj_xI.
    replace (2 * Zpos p + 1) with (1 + (Zpos p + Zpos p)) by lia.
    pose proof (shr_1_shifted mrs Hm) as S1.
    assert (N1 : 0 <= shr_m (shr_1 mrs))
      by (apply (shifted_nonneg 1 mrs); [lia|exact Hm|exact S1]).
    pose proof (IH _ N1) as S2.
    assert (N2 : 0 <= shr_m (iter_pos shr_1 p (shr_1 mrs)))
      by (apply (shifted_nonneg (Zpos p) (shr_1 mrs)); [lia|exact N1|exact S2]).
    pose proof (IH _ N2) as S3.
    eapply shifted_trans; [lia|lia|exact Hm|exact S1|].
    eapply shifted_trans; [lia|lia|exact N1|exact S2|exact S3].
  - rewrite Pos2Z.inj_xO. replace (2 * Zpos p) with (Zpos p + Zpos p) by lia.
    pose proof (IH _ Hm) as S2.
    assert (N2 : 0 <= shr_m (iter_pos shr_1 p mrs))
      by (apply (shifted_nonneg (Zpos p) mrs); [lia|exact Hm|exact S2]).
    eapply shifted_trans; [lia|lia|exact Hm|exact S2|apply IH, N2].
  - now apply shr_1_shifted.
Qed.

Lemma shr_shifted m l e n :
  0 <= m ->
  snd (shr (shr_record_of_loc m l) e n) = e + Z.max 0 n /\
  shifted (Z.max 0 n) (shr_record_of_loc m l)
          (fst (shr (shr_record_of_loc m l) e n)).
Proof.
  intro Hm. unfold shr.
  assert (Hrefl : forall x, shifted 0 x x).
  { intro x. split; [now rewrite Z.div_1_r|tauto]. }
  destruct n as [|p|p]; cbn [fst snd].
  - split; [simpl; lia|apply Hrefl].
  - replace (Z.max 0 (Zpos p)) with (Zpos p) by lia.
    split; [reflexivity|]. apply iter_pos_shifted.
    now destruct l as [|[]].
  - split; [simpl; lia|apply Hrefl].
Qed.

Lemma shr_m_of_loc m l : shr_m (shr_record_of_loc m l) = m.
Proof. now destruct l as [|[]]. Qed.

Lemma lossless_of_loc m : lossless (shr_record_of_loc m loc_Exact).
Proof. now split. Qed.

Lemma round_nearest_even_exact mrs :
  lossless mrs -> round_nearest_even (shr_m mrs) (loc_of_shr_record mrs) = shr_m mrs.
Proof. destruct mrs as [m r s]. intros [H1 H2]. simpl in *. now subst. Qed.

Lemma round_nearest_even_bounds m l :
  m <= round_nearest_even m l <= m + 1.
Proof.
  unfold round_nearest_even. destruct l as [|[]]; try lia.
  destruct (Z.even m); lia.
Qed.

Lemma binary_round_aux_upper mx ex lx N :
  0 <= mx ->
  mx <= N * 2 ^ Z.max 0 (fexp prec emax (Zdigits2 mx + ex) - ex) ->
  (lx <> loc_Exact ->
   mx < N * 2 ^ Z.max 0 (fexp prec emax (Zdigits2 mx + ex) - ex)) ->
  binary_round_aux prec emax false mx ex lx = S754_zero false \/
  exists m n2,
    0 <= n2 /\ Zpos m * 2 ^ n2 <= N /\
    (binary_round_aux prec emax false mx ex lx
     = S754_finite false m
         (ex + Z.max 0 (fexp prec emax (Zdigits2 mx + ex) - ex) + n2) \/
     (binary_round_aux prec emax false mx ex lx = S754_infinity false /\
      emax - prec
      < ex + Z.max 0 (fexp prec emax (Zdigits2 mx + ex) - ex) + n2)).
Proof.
  intros Hm. set (n1 := Z.max 0 (fexp prec emax (Zdigits2 mx + ex) - ex)).
  intros Hle Hlt.
  assert (Hn1 : 0 <= n1) by (unfold n1; lia).
  assert (P1 : 0 < 2 ^ n1) by (apply Z.pow_pos_nonneg; lia).
  unfold binary_round_aux, shr_fexp.
  destruct (shr_shifted mx lx ex (fexp prec emax (Zdigits2 mx + ex) - ex) Hm)
    as [He1 [Hm1 Hx1]].
  fold n1 in He1, Hm1, Hx1.
  destruct (shr (shr_record_of_loc mx lx) ex
              (fexp prec emax (Zdigits2 mx + ex) - ex)) as [mrs1 e1].
  cbn [fst snd] in He1, Hm1, Hx1. rewrite shr_m_of_loc in Hm1, Hx1.
  set (r := round_nearest_even (shr_m mrs1) (loc_of_shr_record mrs1)).
  assert (Hm1' : 0 <= shr_m mrs1) by (rewrite Hm1; apply Z.div_pos; lia).
  assert (Hr0 : 0 <= r).
  { pose proof (round_nearest_even_bounds (shr_m mrs1) (loc_of_shr_record mrs1)).
    unfold r. lia. }
  assert (HrN : r <= N).
  { assert (Hd : shr_m mrs1 <= N).
    { rewrite Hm1. apply Z.div_le_upper_bound; lia. }
    destruct (Z.eq_dec (shr_m mrs1) N) as [E|NE].
    - assert (Hge : N * 2 ^ n1 <= mx).
      { rewrite <- E, Hm1. rewrite Z.mul_comm. apply Z.mul_div_le. lia. }
      assert (Heq : mx = N * 2 ^ n1) by lia.
      assert (Hlx : lx = loc_Exact).
      { destruct lx as [|c]; [reflexivity|].
        assert (mx < N * 2 ^ n1) by (apply Hlt; discriminate). lia. }
      assert (Hex : lossless mrs1).
      { apply Hx1.
        - subst lx. apply lossless_of_loc.
        - rewrite Heq. apply Z_mod_mult. }
      unfold r. rewrite round_nearest_even_exact by exact Hex. lia.
    - pose proof (round_nearest_even_bounds (shr_m mrs1)
                    (loc_of_shr_record mrs1)).
      unfold r. lia. }
  destruct (shr_shifted r loc_Exact e1 (fexp prec emax (Zdigits2 r + e1) - e1) Hr0)
    as [He2 [Hm2 _]].
  destruct (shr (shr_record_of_loc r loc_Exact) e1
              (fexp prec emax (Zdigits2 r + e1) - e1)) as [mrs2 e2].
  cbn [fst snd] in He2, Hm2. rewrite shr_m_of_loc in Hm2.
  set (n2 := Z.max 0 (fexp prec emax (Zdigits2 r + e1) - e1)) in *.
  assert (Hn2 : 0 <= n2) by (unfold n2; lia).
  assert (P2 : 0 < 2 ^ n2) by (apply Z.pow_pos_nonneg; lia).
  assert (Hm2' : shr_m mrs2 * 2 ^ n2 <= r).
  { rewrite Hm2, Z.mul_comm. apply Z.mul_div_le. lia. }
  assert (Hm2'' : 0 <= shr_m mrs2) by (rewrite Hm2; apply Z.div_pos; lia).
  destruct (shr_m mrs2) as [|m|m]; [now left| |lia].
  right. exists m, n2. split; [exact Hn2|]. split; [lia|].
  subst e2 e1.
  destruct (Z.leb_spec (ex + n1 + n2) (emax - prec)); [now left|right].
  now split.
Qed.

Lemma fexp_small e : -1021 <= e -> fexp prec emax e = e - 53.
Proof. unfold fexp, emin, prec, emax. lia. Qed.

Lemma binary_round_aux_canonical m e :
  Zpos (digits2_pos m) = 53 -> -1074 <= e <= 971 ->
  binary_round_aux prec emax false (Zpos m) e loc_Exact = S754_finite false m e.
Proof.
  intros Hd He. unfold binary_round_aux, shr_fexp.
  cbn [Zdigits2 shr_record_of_loc]. rewrite Hd.
  replace (fexp prec emax (53 + e) - e) with 0
    by (unfold fexp, emin, prec, emax; lia).
  cbn [shr shr_m loc_of_shr_record round_nearest_even shr_record_of_loc Zdigits2].
  rewrite Hd.
  replace (fexp prec emax (53 + e) - e) with 0
    by (unfold fexp, emin, prec, emax; lia).
  cbn [shr shr_m].
  destruct (Z.leb_spec e (emax - prec)) as [_|H]; [reflexivity|].
  unfold emax, prec in H. lia.
Qed.

Lemma iter_xO p k : Zpos (Pos.iter xO p k) = Zpos p * 2 ^ Zpos k.
Proof.
  induction k as [|k IH] using Pos.peano_ind.
  - simpl. lia.
  - rewrite Pos.iter_succ, Pos2Z.inj_xO, IH, Pos2Z.inj_succ, Z.pow_succ_r by lia.
    lia.
Qed.

(** The double of a positive integer below 2^53: a 53-bit mantissa. *)
Lemma Number_of_pos p :
  Zpos p < 2 ^ 53 ->
  exists m e,
    Number_of_Z (Zpos p) = S754_finite false m e /\
    -52 <= e <= 0 /\
    Zpos m = Zpos p * 2 ^ (- e) /\
    Zpos (digits2_pos m) = 53.
Proof.
  intro Hp. pose proof (digits2_bounds p) as [Blo Bhi].
  pose proof (digits2_upper p 53 ltac:(lia) Hp) as Hd.
  set (d := Zpos (digits2_pos p)) in *.
  assert (Hd1 : 1 <= d) by (unfold d; lia).
  unfold Number_of_Z, binary_normalize, binary_round.
  fold d. rewrite fexp_small by lia.
  unfold shl_align. rewrite Z.add_0_r, Z.sub_0_r.
  destruct (d - 53) as [|k|k] eqn:Ek; try lia.
  - exists p, 0. rewrite binary_round_aux_canonical by (fold d; lia).
    repeat split; try lia; fold d; lia.
  - assert (Hdig : Zpos (digits2_pos (Pos.iter xO p k)) = 53).
    { apply digits2_unique. rewrite iter_xO.
      replace (Zpos k) with (53 - d) by lia.
      replace (2 ^ (53 - 1)) with (2 ^ (d - 1) * 2 ^ (53 - d)).
      2:{ rewrite <- Z.pow_add_r by lia. f_equal. lia. }
      replace (2 ^ 53) with (2 ^ d * 2 ^ (53 - d)).
      2:{ rewrite <- Z.pow_add_r by lia. f_equal. lia. }
      assert (0 < 2 ^ (53 - d)) by (apply Z.pow_pos_nonneg; lia).
      split; [apply Z.mul_le_mono_nonneg_r; lia|apply Z.mul_lt_mono_pos_r; lia]. }
    exists (Pos.iter xO p k), (Zneg k).
    rewrite binary_round_aux_canonical by (try exact Hdig; lia).
    split; [reflexivity|]. split; [lia|].
    split; [rewrite iter_xO; reflexivity|exact Hdig].
Qed.

Lemma new_location_exact nb k :
  new_location nb k <> loc_Exact -> k <> 0.
Proof.
  unfold new_location, new_location_even, new_location_odd.
  intros H ->. destruct (Z.even nb); simpl in H; now apply H.
Qed.

Lemma pow2_le_inv a b : 0 <= b -> 2 ^ a <= 2 ^ b -> a <= b.
Proof.
  intros Hb H. destruct (Z.leb_spec a b); [assumption|].
  assert (2 ^ b < 2 ^ a) by (apply Z.pow_lt_mono_r; lia). lia.
Qed.

(** [c / t] for [0 < c <= t]: a double that is at most 1. *)
Lemma SFdiv_at_most_one mx ex my ey c t :
  Zpos (digits2_pos mx) = 53 -> Zpos (digits2_pos my) = 53 ->
  -52 <= ex <= 0 -> -52 <= ey <= 0 ->
  Zpos mx = c * 2 ^ (- ex) -> Zpos my = t * 2 ^ (- ey) ->
  0 < c <= t ->
  SFdiv prec emax (S754_finite false mx ex) (S754_finite false my ey)
  = S754_zero false \/
  exists m e,
    SFdiv prec emax (S754_finite false mx ex) (S754_finite false my ey)
    = S754_finite false m e /\
    e <= 0 /\ Zpos m <= 2 ^ (- e).
Proof.
  intros Hdx Hdy Hex Hey Hmx Hmy Hct.
  unfold SFdiv, SFdiv_core_binary. cbn [Zdigits2 xorb]. rewrite Hdx, Hdy.
  replace (Z.min (fexp prec emax (53 + ex - (53 + ey))) (ex - ey))
    with (ex - ey - 53) by (unfold fexp, emin, prec, emax; lia).
  replace (ex - ey - (ex - ey - 53)) with 53 by lia.
  cbv iota. rewrite Z.shiftl_mul_pow2 by lia.
  pose proof (Z_div_mod (Zpos mx * 2 ^ 53) (Zpos my) ltac:(lia)) as Hdm.
  destruct (Z.div_eucl (Zpos mx * 2 ^ 53) (Zpos my)) as [q r].
  destruct Hdm as [Hq Hr].
  set (e' := ex - ey - 53) in *.
  assert (Pe : 0 < 2 ^ (- e')) by (apply Z.pow_pos_nonneg; lia).
  assert (Hnum : Zpos mx * 2 ^ 53 <= Zpos my * 2 ^ (- e')).
  { rewrite Hmx, Hmy, <- !Z.mul_assoc, <- !Z.pow_add_r by (unfold e'; lia).
    replace (- ey + - e') with (- ex + 53) by (unfold e'; lia).
    apply Z.mul_le_mono_nonneg_r; [|lia].
    apply Z.pow_nonneg. lia. }
  pose proof (digits2_bounds mx) as [Bxl Bxh].
  pose proof (digits2_bounds my) as [Byl Byh].
  rewrite Hdx in Bxl, Bxh. rewrite Hdy in Byl, Byh.
  change (53 - 1) with 52 in Bxl, Byl.
  assert (Hq0 : 0 <= q) by nia.
  assert (Hqle : q <= 2 ^ (- e')) by nia.
  assert (Hqlt : r <> 0 -> q < 2 ^ (- e')) by nia.
  assert (Hdq : Zdigits2 q <= 54).
  { destruct q as [|qp|qp]; try lia. cbn [Zdigits2].
    apply digits2_upper; [lia|].
    change (2 ^ 54) with (2 * 2 ^ 53).
    change (2 ^ 52) with 4503599627370496 in *.
    change (2 ^ 53) with 9007199254740992 in *. nia. }
  set (n1 := Z.max 0 (fexp prec emax (Zdigits2 q + e') - e')).
  assert (Hn1 : 0 <= n1 <= 1).
  { unfold n1, fexp, emin, prec, emax.
    destruct q as [|qp|qp]; cbn [Zdigits2] in *; lia. }
  assert (HN : 2 ^ (- e' - n1) * 2 ^ n1 = 2 ^ (- e')).
  { rewrite <- Z.pow_add_r by (unfold e' in *; lia). f_equal. lia. }
  destruct (binary_round_aux_upper q e' (new_location (Zpos my) r)
              (2 ^ (- e' - n1)) Hq0) as [Hz|(m & n2 & Hn2 & Hm & Hres)].
  - fold n1. rewrite HN. exact Hqle.
  - fold n1. rewrite HN. intro Hloc. apply Hqlt.
    now apply new_location_exact in Hloc.
  - now left.
  - right. fold n1 in Hres.
    assert (Pn2 : 0 < 2 ^ n2) by (apply Z.pow_pos_nonneg; lia).
    assert (Hn2' : n2 <= - e' - n1).
    { apply pow2_le_inv; [unfold e' in *; lia|].
      assert (1 * 2 ^ n2 <= Zpos m * 2 ^ n2)
        by (apply Z.mul_le_mono_nonneg_r; lia). lia. }
    assert (Hsplit : 2 ^ (- e' - n1) = 2 ^ (- (e' + n1 + n2)) * 2 ^ n2).
    { rewrite <- Z.pow_add_r by lia. f_equal. lia. }
    exists m, (e' + n1 + n2).
    destruct Hres as [Hres|[_ Hover]];
      [|unfold emax, prec in Hover; lia].
    split; [exact Hres|]. split; [lia|].
    rewrite Hsplit in Hm. nia.
Qed.

Lemma hundred_eq : hundred = S754_finite false 7036874417766400 (-46).
Proof. reflexivity. Qed.

Lemma SFmul_hundred_at_most m e :
  e <= 0 -> Zpos m <= 2 ^ (- e) ->
  SFmul prec emax (S754_finite false m e) hundred = S754_zero false \/
  exists m2 e2,
    SFmul prec emax (S754_finite false m e) hundred = S754_finite false m2 e2 /\
    at_most m2 e2 100.
Proof.
  intros He Hm. rewrite hundred_eq. unfold SFmul. cbn [xorb].
  set (mx := Zpos (m * 7036874417766400)).
  set (ex := e + -46).
  assert (Pe : 0 < 2 ^ (- e)) by (apply Z.pow_pos_nonneg; lia).
  assert (Hmx : mx = Zpos m * (100 * 2 ^ 46)) by (unfold mx; lia).
  assert (Hmx_le : mx <= 100 * 2 ^ (46 - e)).
  { rewrite Hmx. replace (46 - e) with (- e + 46) by lia.
    rewrite Z.pow_add_r by lia.
    change (2 ^ 46) with 70368744177664. nia. }
  assert (Hd : Zdigits2 mx <= 53 - e).
  { unfold mx. cbn [Zdigits2]. apply digits2_upper; [lia|].
    fold mx. replace (53 - e) with (7 + (46 - e)) by lia.
    rewrite Z.pow_add_r by lia.
    assert (0 < 2 ^ (46 - e)) by (apply Z.pow_pos_nonneg; lia).
    change (2 ^ 7) with 128. nia. }
  set (n1 := Z.max 0 (fexp prec emax (Zdigits2 mx + ex) - ex)).
  assert (Hn1 : 0 <= n1 <= - e).
  { unfold n1, fexp, emin, prec, emax, ex. lia. }
  set (E := ex + n1).
  assert (HE : E <= -46) by (unfold E, ex; lia).
  assert (HN : 100 * 2 ^ (- E) * 2 ^ n1 = 100 * 2 ^ (46 - e)).
  { rewrite <- Z.mul_assoc, <- Z.pow_add_r by lia. do 2 f_equal.
    unfold E, ex. lia. }
  destruct (binary_round_aux_upper mx ex loc_Exact (100 * 2 ^ (- E))
              ltac:(unfold mx; lia))
    as [Hz|(m2 & n2 & Hn2 & Hm2 & Hres)].
  - fold n1. rewrite HN. exact Hmx_le.
  - intro Habs. now elim Habs.
  - now left.
  - right. fold n1 in Hres. fold E in Hres.
    assert (Pn2 : 0 < 2 ^ n2) by (apply Z.pow_pos_nonneg; lia).
    assert (PE : 0 < 2 ^ (- E)) by (apply Z.pow_pos_nonneg; lia).
    assert (Hn2' : n2 <= 7 - E).
    { apply pow2_le_inv; [lia|].
      replace (7 - E) with (7 + - E) by lia. rewrite Z.pow_add_r by lia.
      change (2 ^ 7) with 128.
      assert (1 * 2 ^ n2 <= Zpos m2 * 2 ^ n2)
        by (apply Z.mul_le_mono_nonneg_r; lia). lia. }
    exists m2, (E + n2).
    destruct Hres as [Hres|[_ Hover]];
      [|unfold emax, prec in Hover; lia].
    split; [exact Hres|]. unfold at_most.
    destruct (Z.leb_spec 0 (E + n2)) as [Hpos|Hneg].
    + replace (Z.max 0 (E + n2)) with (E + n2) by lia.
      replace (Z.max 0 (- (E + n2))) with 0 by lia.
      replace n2 with ((E + n2) + - E) in Hm2 by lia.
      rewrite Z.pow_add_r in Hm2 by lia.
      assert (0 < 2 ^ (E + n2)) by (apply Z.pow_pos_nonneg; lia).
      change (2 ^ 0) with 1. nia.
    + replace (Z.max 0 (E + n2)) with 0 by lia.
      replace (Z.max 0 (- (E + n2))) with (- (E + n2)) by lia.
      replace (- E) with (- (E + n2) + n2) in Hm2 by lia.
      rewrite Z.pow_add_r in Hm2 by lia.
      assert (0 < 2 ^ (- (E + n2))) by (apply Z.pow_pos_nonneg; lia).
      change (2 ^ 0) with 1. nia.
Qed.

Lemma round_half_up_at_most m e b :
  0 <= b -> at_most m e b -> 0 <= round_half_up false m e <= b.
Proof.
  unfold at_most, round_half_up, cond_Zopp. intros Hb H.
  destruct (Z.leb_spec 0 e) as [Hpos|Hneg].
  - replace (Z.max 0 e) with e in H by lia.
    replace (Z.max 0 (- e)) with 0 in H by lia.
    change (2 ^ 0) with 1 in H.
    assert (0 < 2 ^ e) by (apply Z.pow_pos_nonneg; lia). nia.
  - replace (Z.max 0 e) with 0 in H by lia.
    replace (Z.max 0 (- e)) with (- e) in H by lia.
    change (2 ^ 0) with 1 in H.
    assert (P : 0 < 2 ^ (- e)) by (apply Z.pow_pos_nonneg; lia).
    replace (- e + 1) with (Z.succ (- e)) by lia.
    rewrite Z.pow_succ_r by lia. split.
    + apply Z.div_pos; lia.
    + apply Z.lt_succ_r. apply Z.div_lt_upper_bound; nia.
Qed.

Lemma percent_is_a_percentage (c t : nat) :
  (c <= t)%nat -> Z.of_nat t < 2 ^ 53 ->
  exists k, 0 <= k <= 100 /\
    (if greater (Number_of_nat t) (Number_of_Z 0)
     then Math_round
            (SFmul prec emax
               (SFdiv prec emax (Number_of_nat c) (Number_of_nat t)) hundred)
     else Number_of_Z 0) = Number_of_Z k.
Proof.
  intros Hct Ht. unfold greater, Number_of_nat.
  destruct (Z.of_nat t) as [|pt|pt] eqn:Et; try lia.
  - exists 0. split; [lia|reflexivity].
  - destruct (Number_of_pos pt Ht) as (my & ey & -> & Hey & Hmy & Hdy).
    change (SFltb (Number_of_Z 0) (S754_finite false my ey)) with true.
    cbv iota.
    destruct (Z.of_nat c) as [|pc|pc] eqn:Ec; try lia.
    + exists 0. split; [lia|reflexivity].
    + assert (Hc : Zpos pc < 2 ^ 53) by lia.
      destruct (Number_of_pos pc Hc) as (mx & ex & Ex & Hex & Hmx & Hdx).
      rewrite Ex.
      destruct (SFdiv_at_most_one mx ex my ey (Zpos pc) (Zpos pt)
                  Hdx Hdy Hex Hey Hmx Hmy ltac:(lia))
        as [->|(m & e & -> & He & Hm)].
      * exists 0. split; [lia|reflexivity].
      * destruct (SFmul_hundred_at_most m e He Hm)
          as [->|(m2 & e2 & -> & Hle)].
        -- exists 0. split; [lia|reflexivity].
        -- exists (round_half_up false m2 e2).
           split; [apply round_half_up_at_most; [lia|exact Hle]|reflexivity].
Qed.

Lemma filter_length_le {A} (f : A -> bool) (l : list A) :
  (List.length (filter f l) <= List.length l)%nat.
Proof.
  induction l as [|x l IH]; simpl; [lia|]. destruct (f x); simpl; lia.
Qed.

Lemma greater_zero (n : nat) :
  0 < Z.of_nat n < 2 ^ 53 ->
  greater (Number_of_nat n) (Number_of_Z 0) = true.
Proof.
  intros [Hpos Hlt]. unfold greater, Number_of_nat.
  destruct (Z.of_nat n) as [|p|p]; try lia.
  destruct (Number_of_pos p Hlt) as (m & e & -> & _). reflexivity.
Qed.

Lemma Zdigits2_bounds m :
  0 < m -> 2 ^ (Zdigits2 m - 1) <= m < 2 ^ Zdigits2 m.
Proof.
  destruct m as [|p|p]; try lia. intros _. apply digits2_bounds.
Qed.

Lemma Zdigits2_unique m k :
  2 ^ (k - 1) <= m < 2 ^ k -> 0 < m -> Zdigits2 m = k.
Proof.
  destruct m as [|p|p]; try lia. intros H _. now apply digits2_unique.
Qed.

(** Rounding in the normal range moves a value by one unit of the result
    at most. *)
Lemma binary_round_aux_near mx ex lx :
  0 < mx -> 53 <= Zdigits2 mx ->
  -1074 <= ex + Zdigits2 mx - 53 <= 970 ->
  exists m n,
    binary_round_aux prec emax false mx ex lx = S754_finite false m (ex + n) /\
    Zdigits2 mx - 53 <= n <= Zdigits2 mx - 52 /\
    mx - 2 ^ n < Zpos m * 2 ^ n <= mx + 2 ^ n /\
    2 ^ 52 <= Zpos m < 2 ^ 53.
Proof.
  intros Hm Hd He.
  pose proof (Zdigits2_bounds mx Hm) as [Blo Bhi].
  set (d := Zdigits2 mx) in *.
  set (n1 := d - 53).
  assert (En1 : fexp prec emax (d + ex) - ex = n1)
    by (unfold fexp, emin, prec, emax, n1; lia).
  assert (Hn1 : 0 <= n1) by (unfold n1; lia).
  assert (P1 : 0 < 2 ^ n1) by (apply Z.pow_pos_nonneg; lia).
  unfold binary_round_aux, shr_fexp. fold d. rewrite En1.
  destruct (shr_shifted mx lx ex n1 ltac:(lia)) as [He1 [Hm1 _]].
  replace (Z.max 0 n1) with n1 in He1, Hm1 by lia.
  destruct (shr (shr_record_of_loc mx lx) ex n1) as [mrs1 e1].
  cbn [fst snd] in He1, Hm1. rewrite shr_m_of_loc in Hm1.
  set (m1 := shr_m mrs1) in *.
  set (r := round_nearest_even m1 (loc_of_shr_record mrs1)).
  pose proof (round_nearest_even_bounds m1 (loc_of_shr_record mrs1)) as Hr.
  fold r in Hr.
  (* m1 is the mantissa cut to 53 digits *)
  assert (Hm1lo : m1 * 2 ^ n1 <= mx).
  { rewrite Hm1, Z.mul_comm. apply Z.mul_div_le. lia. }
  assert (Hm1hi : mx < (m1 + 1) * 2 ^ n1).
  { rewrite Hm1. pose proof (Z.mod_pos_bound mx (2 ^ n1) P1).
    pose proof (Z.div_mod mx (2 ^ n1) ltac:(lia)). nia. }
  assert (Hpow : 2 ^ (d - 1) = 2 ^ 52 * 2 ^ n1).
  { rewrite <- Z.pow_add_r by lia. f_equal. unfold n1. lia. }
  assert (Hpow' : 2 ^ d = 2 ^ 53 * 2 ^ n1).
  { rewrite <- Z.pow_add_r by lia. f_equal. unfold n1. lia. }
  assert (Hm1r : 2 ^ 52 <= m1 < 2 ^ 53).
  { change (2 ^ 52) with 4503599627370496 in *.
    change (2 ^ 53) with 9007199254740992 in *. nia. }
  assert (Hr0 : 0 < r) by (change (2 ^ 52) with 4503599627370496 in *; lia).
  (* the second shift: by one bit when rounding carried *)
  set (dr := Zdigits2 r).
  assert (Hdr : 53 <= dr <= 54).
  { pose proof (Zdigits2_bounds r Hr0) as [Rlo Rhi]. fold dr in Rlo, Rhi.
    split.
    - destruct (Z.leb_spec 53 dr); [assumption|].
      assert (2 ^ dr <= 2 ^ 52) by (apply Z.pow_le_mono_r; lia). lia.
    - destruct (Z.leb_spec dr 54); [assumption|].
      assert (2 ^ 54 <= 2 ^ (dr - 1)) by (apply Z.pow_le_mono_r; lia).
      change (2 ^ 54) with 18014398509481984 in *.
      change (2 ^ 53) with 9007199254740992 in *. lia. }
  set (n2 := dr - 53).
  assert (En2 : fexp prec emax (dr + e1) - e1 = n2)
    by (unfold fexp, emin, prec, emax, n2; lia).
  rewrite En2.
  destruct (shr_shifted r loc_Exact e1 n2 ltac:(lia)) as [He2 [Hm2 _]].
  replace (Z.max 0 n2) with n2 in He2, Hm2 by (unfold n2; lia).
  destruct (shr (shr_record_of_loc r loc_Exact) e1 n2) as [mrs2 e2].
  cbn [fst snd] in He2, Hm2. rewrite shr_m_of_loc in Hm2.
  assert (Hn2 : 0 <= n2 <= 1) by (unfold n2; lia).
  assert (P2 : 0 < 2 ^ n2) by (apply Z.pow_pos_nonneg; lia).
  assert (Hm2lo : shr_m mrs2 * 2 ^ n2 <= r).
  { rewrite Hm2, Z.mul_comm. apply Z.mul_div_le. lia. }
  assert (Hm2hi : r < (shr_m mrs2 + 1) * 2 ^ n2).
  { rewrite Hm2. pose proof (Z.mod_pos_bound r (2 ^ n2) P2).
    pose proof (Z.div_mod r (2 ^ n2) ltac:(lia)). nia. }
  assert (Hm2pos : 0 < shr_m mrs2).
  { assert (2 ^ n2 <= 2) by
      (change 2 with (2 ^ 1) at 2; apply Z.pow_le_mono_r; lia).
    change (2 ^ 52) with 4503599627370496 in *. nia. }
  destruct (shr_m mrs2) as [|m|m] eqn:Em; try lia.
  assert (Hle : (e2 <=? emax - prec) = true).
  { apply Z.leb_le. unfold emax, prec, n1, n2 in *. lia. }
  rewrite Hle. exists m, (n1 + n2).
  split; [f_equal; lia|]. split; [unfold n1, n2; lia|].
  split; [rewrite Z.pow_add_r by lia; nia|].
  pose proof (Zdigits2_bounds r Hr0) as [Rlo Rhi]. fold dr in Rlo, Rhi.
  assert (Hp2 : 2 ^ (dr - 1) = 2 ^ 52 * 2 ^ n2).
  { rewrite <- Z.pow_add_r by lia. f_equal. unfold n2. lia. }
  assert (Hp2' : 2 ^ dr = 2 ^ 53 * 2 ^ n2).
  { rewrite <- Z.pow_add_r by lia. f_equal. unfold n2. lia. }
  change (2 ^ 52) with 4503599627370496 in *.
  change (2 ^ 53) with 9007199254740992 in *. nia.
Qed.

(** [x / y] for two doubles with 53-bit mantissas: the quotient [q] of the
    mantissas, moved by one unit of the result at most. *)
Lemma SFdiv_near mx ex my ey :
  Zpos (digits2_pos mx) = 53 -> Zpos (digits2_pos my) = 53 ->
  -52 <= ex <= 0 -> -52 <= ey <= 0 ->
  exists m n q,
    SFdiv prec emax (S754_finite false mx ex) (S754_finite false my ey)
    = S754_finite false m (ex - ey - 53 + n) /\
    0 <= n <= 2 /\
    q * Zpos my <= Zpos mx * 2 ^ 53 < (q + 1) * Zpos my /\
    q - 2 ^ n < Zpos m * 2 ^ n <= q + 2 ^ n /\
    2 ^ 52 <= Zpos m < 2 ^ 53.
Proof.
  intros Hdx Hdy Hex Hey.
  unfold SFdiv, SFdiv_core_binary. cbn [Zdigits2 xorb]. rewrite Hdx, Hdy.
  replace (Z.min (fexp prec emax (53 + ex - (53 + ey))) (ex - ey))
    with (ex - ey - 53) by (unfold fexp, emin, prec, emax; lia).
  replace (ex - ey - (ex - ey - 53)) with 53 by lia.
  cbv iota. rewrite Z.shiftl_mul_pow2 by lia.
  pose proof (Z_div_mod (Zpos mx * 2 ^ 53) (Zpos my) ltac:(lia)) as Hdm.
  destruct (Z.div_eucl (Zpos mx * 2 ^ 53) (Zpos my)) as [q r].
  destruct Hdm as [Hq Hr].
  pose proof (digits2_bounds mx) as [Bxl Bxh].
  pose proof (digits2_bounds my) as [Byl Byh].
  rewrite Hdx in Bxl, Bxh. rewrite Hdy in Byl, Byh.
  change (53 - 1) with 52 in Bxl, Byl.
  assert (Hqr : 2 ^ 52 <= q < 2 ^ 54).
  { change (2 ^ 52) with 4503599627370496 in *.
    change (2 ^ 53) with 9007199254740992 in *.
    change (2 ^ 54) with 18014398509481984. nia. }
  assert (Hq0 : 0 < q) by (change (2 ^ 52) with 4503599627370496 in *; lia).
  assert (Hdq : 53 <= Zdigits2 q <= 54).
  { pose proof (Zdigits2_bounds q Hq0) as [Qlo Qhi].
    split.
    - destruct (Z.leb_spec 53 (Zdigits2 q)); [assumption|].
      assert (2 ^ Zdigits2 q <= 2 ^ 52) by (apply Z.pow_le_mono_r; lia). lia.
    - destruct (Z.leb_spec (Zdigits2 q) 54); [assumption|].
      assert (2 ^ 54 <= 2 ^ (Zdigits2 q - 1))
        by (apply Z.pow_le_mono_r; lia). lia. }
  destruct (binary_round_aux_near q (ex - ey - 53)
              (new_location (Zpos my) r) Hq0 ltac:(lia) ltac:(lia))
    as (m & n & Hres & Hn & Hm & Hmr).
  exists m, n, q. split; [exact Hres|]. split; [lia|].
  split; [nia|]. split; assumption.
Qed.

(** [x * 100] for a double with a 53-bit mantissa. *)
Lemma SFmul_hundred_near m e :
  2 ^ 52 <= Zpos m < 2 ^ 53 -> -200 <= e <= 100 ->
  exists m' n',
    SFmul prec emax (S754_finite false m e) hundred
    = S754_finite false m' (e - 46 + n') /\
    52 <= n' <= 54 /\
    Zpos m * H100 - 2 ^ n' < Zpos m' * 2 ^ n' <= Zpos m * H100 + 2 ^ n'.
Proof.
  intros Hm He. rewrite hundred_eq. unfold SFmul. cbn [xorb].
  set (mx := Zpos (m * 7036874417766400)).
  assert (Hmx : mx = Zpos m * H100) by (unfold mx, H100; lia).
  assert (Hmx0 : 0 < mx) by (unfold mx; lia).
  assert (Hmxr : 2 ^ 104 <= mx < 2 ^ 106).
  { rewrite Hmx. unfold H100.
    change (2 ^ 52) with 4503599627370496 in *.
    change (2 ^ 53) with 9007199254740992 in *.
    change (2 ^ 104) with 20282409603651670423947251286016.
    change (2 ^ 106) with 81129638414606681695789005144064. nia. }
  assert (Hd : 105 <= Zdigits2 mx <= 106).
  { pose proof (Zdigits2_bounds mx Hmx0) as [Lo Hi].
    split.
    - destruct (Z.leb_spec 105 (Zdigits2 mx)); [assumption|].
      assert (2 ^ Zdigits2 mx <= 2 ^ 104) by (apply Z.pow_le_mono_r; lia).
      lia.
    - destruct (Z.leb_spec (Zdigits2 mx) 106); [assumption|].
      assert (2 ^ 106 <= 2 ^ (Zdigits2 mx - 1))
        by (apply Z.pow_le_mono_r; lia). lia. }
  destruct (binary_round_aux_near mx (e + -46) loc_Exact Hmx0 ltac:(lia)
              ltac:(lia))
    as (m' & n' & Hres & Hn & Hm' & _).
  exists m', n'. rewrite <- Hmx.
  replace (e - 46 + n') with (e + -46 + n') by lia.
  split; [exact Hres|]. split; [lia|exact Hm'].
Qed.


(** The arithmetic of the two roundings: the computed percentage is
    within [1/2^40] of [100 c / t], which is closer than any integer plus
    one half unless [100 c / t] is one. *)
Lemma percent_error c t X Y q m A m' B G :
  0 < c <= t -> 0 < Y <= X ->
  q * (t * Y) <= c * X * 2 ^ 53 < (q + 1) * (t * Y) ->
  1 <= A <= 4 -> q - A < m * A <= q + A ->
  1 <= B <= 2 ^ 54 -> m * H100 - B < m' * B <= m * H100 + B ->
  0 < G -> G * Y * A * B = 2 ^ 99 * X ->
  - (t * 2 ^ 57) < A * B * (m' * t - 100 * c * G) < t * 2 ^ 57.
Proof.
  intros Hc HY Hq HA Hm HB Hm' HG HGX.
  set (d := m' * t - 100 * c * G).
  set (u := m' * B * A). set (v := m * A * H100). set (w := q * H100).
  assert (HH : 0 < H100) by (unfold H100; lia).
  assert (Hu : v - A * B < u <= v + A * B).
  { unfold u, v. nia. }
  assert (Hv : w - A * H100 < v <= w + A * H100).
  { unfold v, w. nia. }
  set (tY := t * Y) in *.
  assert (HtY : 0 < tY) by (unfold tY; nia).
  assert (E99 : 2 ^ 53 * H100 = 100 * 2 ^ 99) by reflexivity.
  assert (Hw : w * tY <= 100 * c * X * 2 ^ 99 < w * tY + tY * H100).
  { unfold w.
    replace (100 * c * X * 2 ^ 99) with (c * X * 2 ^ 53 * H100)
      by (rewrite <- Z.mul_assoc, E99; ring).
    nia. }
  assert (HX : 100 * c * X * 2 ^ 99 = 100 * c * (G * Y * A * B))
    by (rewrite HGX; ring).
  assert (Hd : u * tY - 100 * c * X * 2 ^ 99 = Y * (A * B * d)).
  { rewrite HX. unfold u, tY, d. ring. }
  assert (Hup : u * tY <= w * tY + (A * H100 + A * B) * tY) by nia.
  assert (Hlo : w * tY - (A * H100 + A * B) * tY < u * tY) by nia.
  assert (Hbound : H100 + A * H100 + A * B < 2 ^ 57).
  { assert (A * H100 <= 4 * H100)
      by (apply Z.mul_le_mono_nonneg_r; lia).
    assert (A * B <= 4 * 2 ^ 54) by (apply Z.mul_le_mono_nonneg; lia).
    unfold H100 in *. change (2 ^ 54) with 18014398509481984 in *.
    change (2 ^ 57) with 144115188075855872. lia. }
  assert (Hscale : (H100 + A * H100 + A * B) * tY < 2 ^ 57 * tY)
    by (apply Z.mul_lt_mono_pos_r; assumption).
  assert (Hyd : Y * - (t * 2 ^ 57) < Y * (A * B * d) < Y * (t * 2 ^ 57)).
  { rewrite <- Hd. unfold tY in *. lia. }
  destruct Hyd as [Hyd1 Hyd2].
  apply Z.mul_lt_mono_pos_l in Hyd1, Hyd2; try lia.
Qed.

Lemma percent_round c t G m' :
  0 < c <= t -> t < 2 ^ 32 -> 0 < G ->
  2 * Z.abs (m' * t - 100 * c * G) < G ->
  (2 * m' + G) / (2 * G) = (2 * (100 * c) + t) / (2 * t) \/
  ((2 * m' + G) / (2 * G) = (2 * (100 * c) + t) / (2 * t) - 1 /\
   (200 * c) mod (2 * t) = t).
Proof.
  intros Hc Ht HG Hd.
  set (d := m' * t - 100 * c * G) in *.
  pose proof (Z.div_mod (2 * (100 * c) + t) (2 * t) ltac:(lia)) as Hdm.
  pose proof (Z.mod_pos_bound (2 * (100 * c) + t) (2 * t) ltac:(lia)) as Hr.
  set (s := (2 * (100 * c) + t) / (2 * t)) in *.
  set (rho := (2 * (100 * c) + t) mod (2 * t)) in *.
  assert (Ht' : t * (2 * m' + G - 2 * G * s) = 2 * d + G * rho).
  { unfold d. replace (t * (2 * m' + G - 2 * G * s))
      with (2 * (m' * t) + G * (t - 2 * t * s)) by ring.
    replace (t - 2 * t * s) with (rho - 2 * (100 * c)) by lia. ring. }
  destruct (Z.eq_dec rho 0) as [E0|Hne].
  - destruct (Z.leb_spec 0 d) as [Hpos|Hneg].
    + left. symmetry. apply Z.div_unique with (2 * m' + G - 2 * G * s);
        [|ring]. left. nia.
    + right. split.
      * symmetry.
        apply Z.div_unique with (2 * m' + G - 2 * G * s + 2 * G); [|ring].
        left. nia.
      * symmetry. apply Z.mod_unique with (s - 1); [lia|]. lia.
  - left. symmetry. apply Z.div_unique with (2 * m' + G - 2 * G * s);
      [|ring]. left. nia.
Qed.

Lemma percent_close c t X Y A B G m' :
  0 < t < 2 ^ 32 -> 0 < Y <= X -> 1 <= A -> 1 <= B -> 0 < G ->
  G * Y * A * B = 2 ^ 99 * X ->
  - (t * 2 ^ 57) < A * B * (m' * t - 100 * c * G) < t * 2 ^ 57 ->
  2 * Z.abs (m' * t - 100 * c * G) < G.
Proof.
  intros Ht HY HA HB HG HGX Hd.
  set (d := m' * t - 100 * c * G) in *.
  set (P := A * B) in *.
  assert (HP : 0 < P) by (unfold P; nia).
  assert (HGP : 2 ^ 99 <= G * P).
  { assert (H : 2 ^ 99 * Y <= G * P * Y).
    { replace (G * P * Y) with (G * Y * A * B) by (unfold P; ring).
      rewrite HGX. apply Z.mul_le_mono_nonneg_l; lia. }
    apply Z.mul_le_mono_pos_r in H; lia. }
  assert (Hlt : P * (2 * Z.abs d) < P * G).
  { assert (Hd' : P * Z.abs d < t * 2 ^ 57).
    { destruct (Z.abs_spec d) as [[_ ->]|[_ ->]]; lia. }
    change (2 ^ 32) with 4294967296 in *.
    change (2 ^ 57) with 144115188075855872 in *.
    change (2 ^ 99) with 633825300114114700748351602688 in *. lia. }
  apply Z.mul_lt_mono_pos_l in Hlt; lia.
Qed.

Lemma pow2_range n a b : a <= n <= b -> 0 <= a -> 2 ^ a <= 2 ^ n <= 2 ^ b.
Proof. intros H Ha. split; apply Z.pow_le_mono_r; lia. Qed.

(** The percentage of [c] complete items out of [t]: the rounding of
    [100 c / t], or one less when [100 c / t] is an integer and a half. *)
Lemma percent_exact (c t : nat) :
  (0 < c <= t)%nat -> Z.of_nat t < 2 ^ 32 ->
  exists k,
    Math_round
      (SFmul prec emax
         (SFdiv prec emax (Number_of_nat c) (Number_of_nat t)) hundred)
    = Number_of_Z k /\
    (k = spec_percentComplete (Z.of_nat c) (Z.of_nat t) \/
     (k = spec_percentComplete (Z.of_nat c) (Z.of_nat t) - 1 /\
      (200 * Z.of_nat c) mod (2 * Z.of_nat t) = Z.of_nat t)).
Proof.
  intros Hct Ht. unfold Number_of_nat, spec_percentComplete.
  assert (Hc' : 0 < Z.of_nat c <= Z.of_nat t) by lia.
  destruct (Z.of_nat c) as [|pc|pc]; try lia.
  destruct (Z.of_nat t) as [|pt|pt]; try lia.
  assert (H53 : 2 ^ 32 < 2 ^ 53) by reflexivity.
  destruct (Number_of_pos pc ltac:(lia)) as (mx & ex & -> & Hex & Hmx & Hdx).
  destruct (Number_of_pos pt ltac:(lia)) as (my & ey & -> & Hey & Hmy & Hdy).
  pose proof (digits2_bounds mx) as [Bxl Bxh].
  pose proof (digits2_bounds my) as [Byl Byh].
  rewrite Hdx in Bxl, Bxh. rewrite Hdy in Byl, Byh.
  change (53 - 1) with 52 in Bxl, Byl.
  set (X := 2 ^ (- ex)) in *. set (Y := 2 ^ (- ey)) in *.
  assert (PX : 0 < X) by (apply Z.pow_pos_nonneg; lia).
  assert (PY : 0 < Y) by (apply Z.pow_pos_nonneg; lia).
  assert (Hexy : ex <= ey).
  { destruct (Z.leb_spec ex ey) as [|Hlt]; [assumption|].
    assert (HYX : 2 * X <= Y).
    { unfold X, Y. replace (- ey) with (1 + (- ex + (ex - ey - 1))) by lia.
      rewrite !Z.pow_add_r by lia. change (2 ^ 1) with 2.
      assert (0 < 2 ^ (ex - ey - 1)) by (apply Z.pow_pos_nonneg; lia).
      nia. }
    assert (Zpos pc * (2 * X) <= Zpos pt * Y).
    { apply Z.mul_le_mono_nonneg; lia. }
    change (2 ^ 52) with 4503599627370496 in *.
    change (2 ^ 53) with 9007199254740992 in *. lia. }
  assert (HYX : Y <= X) by (unfold X, Y; apply Z.pow_le_mono_r; lia).
  destruct (SFdiv_near mx ex my ey Hdx Hdy Hex Hey)
    as (m & n & q & -> & Hn & Hq & Hm & Hmr).
  destruct (SFmul_hundred_near m (ex - ey - 53 + n) Hmr ltac:(lia))
    as (m' & n' & -> & Hn' & Hm').
  set (e2 := ex - ey - 53 + n - 46 + n').
  assert (He2 : e2 < 0) by (unfold e2; lia).
  unfold Math_round. fold (Number_of_Z (round_half_up false m' e2)).
  eexists. split; [reflexivity|].
  unfold round_half_up, cond_Zopp.
  destruct (Z.leb_spec 0 e2) as [|_]; [lia|].
  set (G := 2 ^ (- e2)).
  assert (PG : 0 < G) by (apply Z.pow_pos_nonneg; lia).
  replace (2 ^ (- e2 + 1)) with (2 * G)
    by (unfold G; rewrite Z.pow_add_r by lia; change (2 ^ 1) with 2; lia).
  assert (HGX : G * Y * 2 ^ n * 2 ^ n' = 2 ^ 99 * X).
  { unfold G, X, Y. rewrite <- !Z.pow_add_r by lia. f_equal.
    unfold e2. lia. }
  pose proof (pow2_range n 0 2 Hn ltac:(lia)) as HA.
  pose proof (pow2_range n' 0 54 ltac:(lia) ltac:(lia)) as HB.
  change (2 ^ 0) with 1 in HA, HB. change (2 ^ 2) with 4 in HA.
  rewrite Hmx, Hmy in Hq.
  pose proof (percent_error (Zpos pc) (Zpos pt) X Y q (Zpos m) (2 ^ n)
                (Zpos m') (2 ^ n') G Hc' (conj PY HYX) Hq HA Hm HB Hm' PG HGX)
    as Herr.
  apply percent_round; try assumption.
  apply (percent_close (Zpos pc) (Zpos pt) X Y (2 ^ n) (2 ^ n') G (Zpos m'));
    try assumption; try lia.
Qed.

(** C10 amended.  For every checklist (an array holds fewer than 2^32
    items), [convertToCheckList] returns as [percentComplete] the number 0
    when the checklist has no item, and otherwise [Math.round] of the
    double-precision value of [(completedItems / totalItems) * 100]: that
    is [round(100 * completedItems / totalItems)], except that it can be
    one less when [100 * completedItems / totalItems] is an integer and a
    half; in both cases the result is an integer between 0 and 100.  An
    item counts as completed iff its state equals ['complete'], and that
    is also its [complete] flag. *)
Theorem convertToCheckList_percentComplete
  (trelloChecklist : TrelloChecklist)
  (Hlength : Z.of_nat (List.length (checkItems trelloChecklist)) < 2 ^ 32) :
  let completedItems :=
    Z.of_nat (List.length
                (filter (fun item => String.eqb (state item) "complete")
                        (checkItems trelloChecklist))) in
  let totalItems := Z.of_nat (List.length (checkItems trelloChecklist)) in
  (checkItems trelloChecklist = [] ->
   percentComplete (convertToCheckList trelloChecklist) = Number_of_Z 0) /\
  (checkItems trelloChecklist <> [] ->
   exists k,
     percentComplete (convertToCheckList trelloChecklist) = Number_of_Z k /\
     (k = spec_percentComplete completedItems totalItems \/
      (k = spec_percentComplete completedItems totalItems - 1 /\
       (200 * completedItems) mod (2 * totalItems) = totalItems))) /\
  (exists k, 0 <= k <= 100 /\
             percentComplete (convertToCheckList trelloChecklist)
             = Number_of_Z k) /\
  (forall item parent,
      complete (convertToCheckListItem item parent) = true
      <-> state item = "complete").
Proof.
  intros completedItems totalItems.
  assert (H53 : Z.of_nat (List.length (checkItems trelloChecklist)) < 2 ^ 53).
  { change (2 ^ 32) with 4294967296 in Hlength.
    change (2 ^ 53) with 9007199254740992. lia. }
  split; [|split; [|split]].
  - intro E. unfold convertToCheckList. rewrite E. reflexivity.
  - intro Hne. unfold convertToCheckList. cbn [percentComplete].
    assert (Hpos : (0 < List.length (checkItems trelloChecklist))%nat).
    { destruct (checkItems trelloChecklist); [contradiction|simpl; lia]. }
    rewrite greater_zero by lia.
    pose proof (filter_length_le
                  (fun item => String.eqb (state item) "complete")
                  (checkItems trelloChecklist)) as Hle.
    unfold completedItems, totalItems.
    destruct (List.length
                (filter (fun item => String.eqb (state item) "complete")
                        (checkItems trelloChecklist))) as [|c] eqn:Ec.
    + exists 0. split.
      * unfold Number_of_nat at 2.
        destruct (Z.of_nat (List.length (checkItems trelloChecklist)))
          as [|p|p] eqn:E; try lia.
        destruct (Number_of_pos p H53) as (m & e & -> & _). reflexivity.
      * left. unfold spec_percentComplete.
        change (2 * (100 * Z.of_nat 0)) with 0.
        symmetry. apply Z.div_small. lia.
    + apply percent_exact; [lia|exact Hlength].
  - unfold convertToCheckList. cbn [percentComplete].
    apply percent_is_a_percentage; [apply filter_length_le|exact H53].
  - intros item parent. cbn [convertToCheckListItem complete].
    apply String.eqb_eq.
Qed.

Lemma convertToCheckList_percentComplete_witness :
  percentComplete (convertToCheckList (checklist_of 1 3)) = Number_of_Z 33.
Proof.
  destruct (convertToCheckList_percentComplete (checklist_of 1 3))
    as (_ & H & _).
  - vm_compute. reflexivity.
  - destruct H as (k & -> & [->|[_ Htie]]); [discriminate|reflexivity|].
    vm_compute in Htie. discriminate Htie.
Defined.

(** C10, refuted on the code: of 40 items 23 are complete, that is 57.5
    per cent, which rounds to 58; in double precision [23 / 40 * 100] is
    57.49999999999999 and [convertToCheckList] answers 57. *)
Lemma convertToCheckList_rounds_23_of_40_down :
  percentComplete (convertToCheckList (checklist_of 23 40)) = Number_of_Z 57 /\
  spec_percentComplete 23 40 = 58 /\
  Math_round (SFdiv prec emax
                (SFmul prec emax hundred (Number_of_Z 23)) (Number_of_Z 40))
  = Number_of_Z 58 /\
  Number_of_Z 57 <> Number_of_Z 58.
Proof.
  split; [vm_compute; reflexivity|].
  split; [reflexivity|].
  split; [vm_compute; reflexivity|].
  vm_compute. discriminate.
Qed.

Example convertToCheckList_empty :
  percentComplete (convertToCheckList (checklist_of 0 0)) = Number_of_Z 0.
Proof. reflexivity. Qed.

(** ** Further properties of the client *)

(** *** Construction and the stored configuration *)

Lemma constructor_boardId cfg :
  boardId (activeConfig (constructor cfg))
  = if truthy (boardId cfg) then boardId cfg
    else if truthy (defaultBoardId cfg) then defaultBoardId cfg
         else boardId cfg.
Proof.
  unfold constructor.
  destruct (truthy (boardId cfg)) eqn:Eb; simpl.
  - rewrite Eb. simpl. rewrite andb_false_r. reflexivity.
  - rewrite Eb. simpl. rewrite andb_true_r.
    destruct (truthy (defaultBoardId cfg)); reflexivity.
Qed.

Lemma effectiveBoardId_active this b :
  boardId (activeConfig this) = b -> truthy b = true ->
  effectiveBoardId this None = b.
Proof.
  intros <- Hb. unfold effectiveBoardId, or_else.
  change (truthy None) with false. cbv iota. now rewrite Hb.
Qed.

(** X1.  The server refuses to start exactly when a credential is
    missing or empty, with an error that says so.  The client it builds
    otherwise has [TRELLO_BOARD_ID] as default board and, when that is not
    empty, as active board.  [run()] then loads the saved configuration,
    ignoring a failure: after it, a board method called without a
    [boardId] works on the saved board when the file holds a non-empty
    one, and on [TRELLO_BOARD_ID] otherwise: it does what it does when
    called with that id, and [getLists] sends
    [GET /boards/{id}/lists]. *)
Theorem server_client_works_on_the_environment_board
  {P} (TRELLO_API_KEY TRELLO_TOKEN TRELLO_BOARD_ID : optstring) :
  (forall error,
      TrelloServer_constructor TRELLO_API_KEY TRELLO_TOKEN TRELLO_BOARD_ID
      = Rejected error <->
      (truthy TRELLO_API_KEY = false \/ truthy TRELLO_TOKEN = false) /\
      error = JsError
        "TRELLO_API_KEY and TRELLO_TOKEN environment variables are required")
  /\
  (forall this,
      TrelloServer_constructor TRELLO_API_KEY TRELLO_TOKEN TRELLO_BOARD_ID
      = Fulfilled this ->
      truthy TRELLO_API_KEY = true /\
      truthy TRELLO_TOKEN = true /\
      this_defaultBoardId this = TRELLO_BOARD_ID /\
      (truthy TRELLO_BOARD_ID = true ->
       boardId (activeConfig this) = TRELLO_BOARD_ID) /\
      forall (read : ReadOutcome) (id : string),
        first_present [saved_board read; TRELLO_BOARD_ID] = Some id ->
        forall (fuel : nat) (w : World P),
          (forall m : BoardMethod,
              call_method m fuel (snd (loadConfig read this)) None w
              = call_method m fuel (snd (loadConfig read this)) (Some id) w)
          /\
          getLists fuel (snd (loadConfig read this)) None w
          = handle fuel
              (return_data
                 (mkRequest GET ("/boards/" ++ id ++ "/lists") [] None)) w).
Proof.
  unfold TrelloServer_constructor. split.
  - intro error.
    destruct (truthy TRELLO_API_KEY), (truthy TRELLO_TOKEN); simpl; split;
      try (intros [= <-]; split; [tauto|reflexivity]);
      try (intros [_ ->]; reflexivity);
      try discriminate.
    intros [[H|H] _]; discriminate H.
  - intros this Hstart.
    destruct (truthy TRELLO_API_KEY) eqn:Ek; [|discriminate Hstart].
    destruct (truthy TRELLO_TOKEN) eqn:Et; [|discriminate Hstart].
    simpl in Hstart. injection Hstart as <-.
    split; [reflexivity|]. split; [reflexivity|]. split; [reflexivity|].
    assert (Hb : truthy TRELLO_BOARD_ID = true ->
                 boardId (activeConfig (constructor
                   (mkConfig (narrowed TRELLO_API_KEY) (narrowed TRELLO_TOKEN)
                             TRELLO_BOARD_ID TRELLO_BOARD_ID None)))
                 = TRELLO_BOARD_ID).
    { intro Hboard. rewrite constructor_boardId. simpl. now rewrite Hboard. }
    split; [exact Hb|].
    intros read id Hid fuel w.
    set (this := constructor _) in *.
    assert (Hactive : boardId (activeConfig (snd (loadConfig read this)))
                      = Some id).
    { cbn [first_present] in Hid.
      destruct read as [e|msg|b ws]; cbn [saved_board] in Hid.
      - change (truthy None) with false in Hid. cbv iota in Hid.
        destruct (truthy TRELLO_BOARD_ID) eqn:Eb; [|discriminate Hid].
        rewrite <- Hid, <- (Hb eq_refl). f_equal.
        unfold loadConfig. destruct (node_code e) as [c|]; [|reflexivity].
        now destruct (negb (String.eqb c "ENOENT")).
      - change (truthy None) with false in Hid. cbv iota in Hid.
        destruct (truthy TRELLO_BOARD_ID) eqn:Eb; [|discriminate Hid].
        rewrite <- Hid, <- (Hb eq_refl). reflexivity.
      - unfold loadConfig. cbn [snd activeConfig].
        destruct (truthy b) eqn:Esaved.
        + subst b. now destruct (truthy ws).
        + destruct (truthy TRELLO_BOARD_ID) eqn:Eb; [|discriminate Hid].
          rewrite <- Hid, <- (Hb eq_refl). now destruct (truthy ws). }
    assert (Hid' : truthy (Some id) = true)
      by (eapply first_present_truthy, Hid).
    assert (Hnone : effectiveBoardId (snd (loadConfig read this)) None
                    = Some id)
      by (now apply effectiveBoardId_active).
    assert (Hsome : effectiveBoardId (snd (loadConfig read this)) (Some id)
                    = Some id).
    { unfold effectiveBoardId, or_else. rewrite Hid'. cbv iota.
      now rewrite Hid'. }
    split.
    + intro m. now rewrite !call_method_unfold, Hnone, Hsome.
    + unfold getLists. cbv zeta. rewrite Hnone, Hid'. reflexivity.
Qed.

Lemma server_client_works_on_the_environment_board_witness :
  getLists 2
    (snd (loadConfig (Parsed (Some "saved") None)
            (constructor (mkConfig "key" "token" (Some "b7") (Some "b7")
                                   None))))
    None (scripted_world true [])
  = handle 2 (return_data (mkRequest GET "/boards/saved/lists" [] None))
           (scripted_world true []).
Proof.
  destruct (server_client_works_on_the_environment_board
              (P := scripted_platform true)
              (Some "key") (Some "token") (Some "b7")) as [_ H].
  destruct (H (constructor (mkConfig "key" "token" (Some "b7") (Some "b7")
                                     None))
              eq_refl) as (_ & _ & _ & _ & H').
  exact (proj2 (H' (Parsed (Some "saved") None) "saved" eq_refl
                   2%nat (scripted_world true []))).
Defined.

(** X2.  [loadConfig] never touches the credentials nor the default
    board.  It rejects only when the file system threw an error that has a
    [code] other than ['ENOENT'], and then rethrows it; a missing file, an
    error without [code] and unparsable content all leave the client as it
    was and resolve. *)
Theorem loadConfig_changes_only_board_and_workspace
  (read : ReadOutcome) (this : TrelloClient) :
  (config (snd (loadConfig read this)) = config this /\
   this_defaultBoardId (snd (loadConfig read this))
   = this_defaultBoardId this /\
   apiKey (activeConfig (snd (loadConfig read this)))
   = apiKey (activeConfig this) /\
   token (activeConfig (snd (loadConfig read this)))
   = token (activeConfig this) /\
   defaultBoardId (activeConfig (snd (loadConfig read this)))
   = defaultBoardId (activeConfig this)) /\
  (forall error,
      fst (loadConfig read this) = Rejected error <->
      exists e c, read = FsThrew e /\ node_code e = Some c /\
                  c <> "ENOENT" /\ error = JsError (node_message e)) /\
  ((forall b ws, read <> Parsed b ws) ->
   snd (loadConfig read this) = this).
Proof.
  split; [|split].
  - destruct read as [e|msg|b ws]; unfold loadConfig.
    + destruct (node_code e) as [c|]; [|now repeat split].
      destruct (negb (String.eqb c "ENOENT")); now repeat split.
    + now repeat split.
    + destruct (truthy b), (truthy ws); now repeat split.
  - intro error. split.
    + destruct read as [e|msg|b ws]; unfold loadConfig; try discriminate.
      destruct (node_code e) as [c|] eqn:Ec; [|discriminate].
      destruct (String.eqb_spec c "ENOENT") as [->|Hne]; simpl;
        [discriminate|].
      intros [= <-]. now exists e, c.
    + intros (e & c & -> & Ec & Hne & ->). unfold loadConfig. rewrite Ec.
      destruct (String.eqb_spec c "ENOENT") as [->|_]; [contradiction|].
      reflexivity.
  - intro Hnot. destruct read as [e|msg|b ws].
    + unfold loadConfig. destruct (node_code e) as [c|]; [|reflexivity].
      destruct (negb (String.eqb c "ENOENT")); reflexivity.
    + reflexivity.
    + exfalso. now apply (Hnot b ws).
Qed.

Example loadConfig_ignores_a_corrupt_file :
  loadConfig (ParseThrew "Unexpected token } in JSON at position 12")
             (constructor (mkConfig "key" "token" None (Some "b1") None))
  = (Fulfilled tt, constructor (mkConfig "key" "token" None (Some "b1") None)).
Proof. reflexivity. Qed.

Lemma string_field_configToSave this :
  string_field "boardId" (configToSave this) = boardId (activeConfig this) /\
  string_field "workspaceId" (configToSave this)
  = workspaceId (activeConfig this).
Proof.
  unfold configToSave, string_field.
  destruct (boardId (activeConfig this)), (workspaceId (activeConfig this));
    split; reflexivity.
Qed.

(** X3.  What [saveConfig] writes, [loadConfig] reads back: loading the
    saved configuration of a client into that client changes nothing, and
    loading it into any other client gives it the saved active board and
    workspace, each when it is non-empty; an absent or empty one leaves
    the other client's own. *)
Theorem loadConfig_reads_back_what_saveConfig_writes
  (this other : TrelloClient) :
  loadConfig (read_back (configToSave this)) this = (Fulfilled tt, this) /\
  fst (loadConfig (read_back (configToSave this)) other) = Fulfilled tt /\
  boardId (activeConfig (snd (loadConfig (read_back (configToSave this)) other)))
  = (if truthy (boardId (activeConfig this)) then boardId (activeConfig this)
     else boardId (activeConfig other)) /\
  workspaceId
    (activeConfig (snd (loadConfig (read_back (configToSave this)) other)))
  = (if truthy (workspaceId (activeConfig this))
     then workspaceId (activeConfig this)
     else workspaceId (activeConfig other)).
Proof.
  unfold read_back. destruct (string_field_configToSave this) as [-> ->].
  unfold loadConfig.
  destruct this as [cfg dflt [k t d b ws]].
  destruct other as [cfg' dflt' [k' t' d' b' ws']]. simpl.
  destruct (truthy b), (truthy ws); repeat split.
Qed.

(** *** The active workspace *)

(** X4.  [setActiveWorkspace] first fetches the workspace.  When the fetch
    fails the call fails with it, the client is unchanged and nothing is
    written.  When it succeeds the active workspace id is the given one and
    the active board, the credentials and the default board are unchanged;
    the fetched workspace is returned when saving succeeds, and
    [Error('Failed to save configuration')] is raised when it fails. *)
Theorem setActiveWorkspace_sets_only_the_active_workspace
  {P} (fuel : nat) (this : TrelloClient) (workspaceId' : string)
  (w : World P) :
  (forall error,
      settled (getWorkspaceById fuel workspaceId' w) = Some (Rejected error) ->
      setActiveWorkspace fuel this workspaceId' w
      = (this, getWorkspaceById fuel workspaceId' w)) /\
  (forall workspace,
      settled (getWorkspaceById fuel workspaceId' w)
      = Some (Fulfilled workspace) ->
      activeConfig (fst (setActiveWorkspace fuel this workspaceId' w))
      = with_workspaceId (activeConfig this) (Some workspaceId') /\
      boardId (activeConfig (fst (setActiveWorkspace fuel this workspaceId' w)))
      = boardId (activeConfig this) /\
      config (fst (setActiveWorkspace fuel this workspaceId' w))
      = config this /\
      this_defaultBoardId (fst (setActiveWorkspace fuel this workspaceId' w))
      = this_defaultBoardId this /\
      (save_succeeds (fst (setActiveWorkspace fuel this workspaceId' w))
                     (world (getWorkspaceById fuel workspaceId' w)) = true ->
       settled (snd (setActiveWorkspace fuel this workspaceId' w))
       = Some (Fulfilled workspace) /\
       trace (world (snd (setActiveWorkspace fuel this workspaceId' w)))
       = ConfigWritten
           (configToSave (fst (setActiveWorkspace fuel this workspaceId' w)))
         :: trace (world (getWorkspaceById fuel workspaceId' w))) /\
      (save_succeeds (fst (setActiveWorkspace fuel this workspaceId' w))
                     (world (getWorkspaceById fuel workspaceId' w)) = false ->
       settled (snd (setActiveWorkspace fuel this workspaceId' w))
       = Some (Rejected save_failed))).
Proof.
  unfold setActiveWorkspace. split.
  - intros error ->. reflexivity.
  - intros workspace ->.
    set (this' := mkClient _ _ _).
    pose proof (saveConfig_outcome this'
                  (world (getWorkspaceById fuel workspaceId' w))) as [Hok Hko].
    destruct (saveConfig this' (world (getWorkspaceById fuel workspaceId' w)))
      as [[u|error] w'] eqn:Hsave; simpl in *.
    + do 4 (split; [reflexivity|]). split.
      * intro Ht. destruct (Hok Ht) as [_ Htr]. now split.
      * intro Hf. destruct (Hko Hf) as [Habs _]. discriminate Habs.
    + do 4 (split; [reflexivity|]). split.
      * intro Ht. destruct (Hok Ht) as [Habs _]. discriminate Habs.
      * intro Hf. destruct (Hko Hf) as [[= ->] _]. reflexivity.
Qed.

Lemma setActiveBoard_fulfilled {P} fuel this b (w : World P) board :
  settled (snd (setActiveBoard fuel this b w)) = Some (Fulfilled board) ->
  activeConfig (fst (setActiveBoard fuel this b w))
  = with_boardId (activeConfig this) (Some b) /\
  exists tr,
    trace (world (snd (setActiveBoard fuel this b w)))
    = ConfigWritten (configToSave (fst (setActiveBoard fuel this b w))) :: tr.
Proof.
  unfold setActiveBoard.
  destruct (settled (getBoardById fuel b w)) as [[v|error]|] eqn:Ev.
  - set (this' := mkClient _ _ _).
    pose proof (saveConfig_outcome this' (world (getBoardById fuel b w)))
      as [Hok Hko].
    destruct (save_succeeds this' (world (getBoardById fuel b w))) eqn:Es.
    + destruct (Hok eq_refl) as [Hf Htr].
      destruct (saveConfig this' (world (getBoardById fuel b w)))
        as [[u|error] w']; simpl in *; [|discriminate Hf].
      intros _. split; [reflexivity|]. eexists. exact Htr.
    + destruct (Hko eq_refl) as [Hf _].
      destruct (saveConfig this' (world (getBoardById fuel b w)))
        as [[u|error] w']; simpl in *; [discriminate Hf|].
      intro H. injection H as H. discriminate H.
  - simpl. rewrite Ev. discriminate.
  - simpl. rewrite Ev. discriminate.
Qed.

Lemma setActiveWorkspace_fulfilled {P} fuel this ws (w : World P) workspace :
  settled (snd (setActiveWorkspace fuel this ws w))
  = Some (Fulfilled workspace) ->
  activeConfig (fst (setActiveWorkspace fuel this ws w))
  = with_workspaceId (activeConfig this) (Some ws) /\
  exists tr,
    trace (world (snd (setActiveWorkspace fuel this ws w)))
    = ConfigWritten (configToSave (fst (setActiveWorkspace fuel this ws w)))
      :: tr.
Proof.
  unfold setActiveWorkspace.
  destruct (settled (getWorkspaceById fuel ws w)) as [[v|error]|] eqn:Ev.
  - set (this' := mkClient _ _ _).
    pose proof (saveConfig_outcome this' (world (getWorkspaceById fuel ws w)))
      as [Hok Hko].
    destruct (save_succeeds this' (world (getWorkspaceById fuel ws w))) eqn:Es.
    + destruct (Hok eq_refl) as [Hf Htr].
      destruct (saveConfig this' (world (getWorkspaceById fuel ws w)))
        as [[u|error] w']; simpl in *; [|discriminate Hf].
      intros _. split; [reflexivity|]. eexists. exact Htr.
    + destruct (Hko eq_refl) as [Hf _].
      destruct (saveConfig this' (world (getWorkspaceById fuel ws w)))
        as [[u|error] w']; simpl in *; [discriminate Hf|].
      intro H. injection H as H. discriminate H.
  - simpl. rewrite Ev. discriminate.
  - simpl. rewrite Ev. discriminate.
Qed.

(** X5.  Setting the active board and then the active workspace, both
    calls returning, leaves a client that has both, and the configuration
    last written to disk holds both: a restarted client that loads it gets
    the same active board and workspace. *)
Theorem board_then_workspace_are_both_saved
  {P} (fuel fuel' : nat) (this : TrelloClient) (b ws : string)
  (w : World P) (board workspace : Json)
  (Hboard : settled (snd (setActiveBoard fuel this b w))
            = Some (Fulfilled board))
  (Hworkspace :
     settled (snd (setActiveWorkspace fuel'
                     (fst (setActiveBoard fuel this b w)) ws
                     (world (snd (setActiveBoard fuel this b w)))))
     = Some (Fulfilled workspace)) :
  let this'' :=
    fst (setActiveWorkspace fuel' (fst (setActiveBoard fuel this b w)) ws
           (world (snd (setActiveBoard fuel this b w)))) in
  let w'' :=
    world (snd (setActiveWorkspace fuel' (fst (setActiveBoard fuel this b w))
                  ws (world (snd (setActiveBoard fuel this b w))))) in
  boardId (activeConfig this'') = Some b /\
  workspaceId (activeConfig this'') = Some ws /\
  last_written (trace w'')
  = Some (JObj [("boardId", JStr b); ("workspaceId", JStr ws)]) /\
  forall content, last_written (trace w'') = Some content ->
    read_back content = Parsed (Some b) (Some ws).
Proof.
  intros this'' w''.
  destruct (setActiveBoard_fulfilled _ _ _ _ _ Hboard) as [Hb _].
  destruct (setActiveWorkspace_fulfilled _ _ _ _ _ Hworkspace)
    as [Hw [tr Htr]].
  fold this'' in Hw, Htr. fold w'' in Htr.
  assert (Hcfg : configToSave this''
                 = JObj [("boardId", JStr b); ("workspaceId", JStr ws)]).
  { unfold configToSave. rewrite Hw, Hb. reflexivity. }
  split; [rewrite Hw, Hb; reflexivity|].
  split; [rewrite Hw; reflexivity|].
  rewrite Htr. simpl. rewrite Hcfg. split; [reflexivity|].
  intros content [= <-]. reflexivity.
Qed.

Lemma board_then_workspace_are_both_saved_witness :
  last_written (trace (world (snd (setActiveWorkspace 1
     (fst (setActiveBoard 1
             (constructor (mkConfig "key" "token" None None None)) "b1"
             (scripted_world true
                [Fulfilled (mkResponse 200 (JStr "board"));
                 Fulfilled (mkResponse 200 (JStr "workspace"))])))
     "w1"
     (world (snd (setActiveBoard 1
             (constructor (mkConfig "key" "token" None None None)) "b1"
             (scripted_world true
                [Fulfilled (mkResponse 200 (JStr "board"));
                 Fulfilled (mkResponse 200 (JStr "workspace"))]))))))))
  = Some (JObj [("boardId", JStr "b1"); ("workspaceId", JStr "w1")]).
Proof.
  exact (proj1 (proj2 (proj2
    (board_then_workspace_are_both_saved 1 1
       (constructor (mkConfig "key" "token" None None None)) "b1" "w1"
       (scripted_world true
          [Fulfilled (mkResponse 200 (JStr "board"));
           Fulfilled (mkResponse 200 (JStr "workspace"))])
       (JStr "board") (JStr "workspace") eq_refl eq_refl)))).
Defined.

(** *** Retries, seen from upstream *)

Lemma axiosInstance_trace {P} req (w : World P) :
  axiosInstance req w
  = (fst (upstream P req (server w)),
     mkWorld (snd (upstream P req (server w)))
             (waitForAvailableToken P (limiter w)) (fs w)
             (UpstreamCall req :: TokenAcquired :: trace w)).
Proof.
  unfold axiosInstance, adapter, interceptor. simpl.
  now destruct (upstream P req (server w)).
Qed.

Lemma concat_repeat_comm {A} (x : list A) n :
  (List.concat (repeat x n) ++ x)%list = (x ++ List.concat (repeat x n))%list.
Proof.
  induction n as [|n IH]; simpl; [now rewrite app_nil_r|].
  now rewrite <- !app_assoc, IH.
Qed.

(** X6.  When upstream answers the first [n] calls of a request with a
    429 and the next one with a response, [handleRequest] returns the data
    of that response after [n + 1] invocations, and what upstream and the
    limiter have seen is exactly: a token and the request, then [n] times
    a wait of 1000 ms, a token and the same request again.  The delay is
    fixed, and any fuel above [n] gives the same run. *)
Theorem handleRequest_resends_the_request_after_a_second
  {P} (req : AxiosRequest) (errors : list Thrown) (response : AxiosResponse)
  (extra : nat) (w : World P) (s' : ServerState P)
  (Hthrottled : Forall (fun error => throttled error = true) errors)
  (Hanswers : answers req (server w)
                (map Rejected errors ++ [Fulfilled response])%list s') :
  handle (S (List.length errors) + extra) (return_data req) w
  = mkRun (Some (Fulfilled (response_data response)))
          (mkWorld s'
             (Nat.iter (S (List.length errors)) (waitForAvailableToken P)
                       (limiter w))
             (fs w)
             ([UpstreamCall req; TokenAcquired]
                ++ List.concat (repeat [TimedOut 1000; UpstreamCall req;
                                   TokenAcquired]
                                  (List.length errors))
                ++ trace w)%list)
          (S (List.length errors)).
Proof.
  revert w Hanswers.
  induction Hthrottled as [|error errors Herror _ IH]; intros w Hanswers.
  - cbn [map app answers] in Hanswers. destruct Hanswers as [Hfirst ->].
    cbn [List.length Nat.add]. rewrite handle_S, run_return_data.
    rewrite axiosInstance_trace, Hfirst. reflexivity.
  - cbn [map app answers] in Hanswers. destruct Hanswers as [Hfirst Hrest].
    cbn [List.length Nat.add]. rewrite handle_S, run_return_data.
    rewrite axiosInstance_trace, Hfirst.
    apply catch_clause_retry in Herror. rewrite Herror.
    match goal with
    | |- one_more (handle _ _ ?w1) = _ => specialize (IH w1 Hrest)
    end.
    cbn [Nat.add] in IH. rewrite IH. unfold one_more.
    cbn [settled world invocations timeout server limiter fs trace].
    f_equal. f_equal.
    + now rewrite <- Nat.iter_succ_r.
    + cbn [repeat List.concat].
      change (TimedOut 1000 :: UpstreamCall req :: TokenAcquired :: trace w)
        with ([TimedOut 1000; UpstreamCall req; TokenAcquired] ++ trace w)%list.
      rewrite (app_assoc (List.concat _) _ (trace w)), concat_repeat_comm.
      now rewrite <- !app_assoc.
Qed.

Lemma handleRequest_resends_the_request_after_a_second_witness :
  handle 5
    (return_data (mkRequest GET "/members/me/cards" [] None))
    (scripted_world true
       [Rejected too_many_requests; Rejected too_many_requests;
        Fulfilled (mkResponse 200 (JArr []))])
  = mkRun (Some (Fulfilled (JArr [])))
      (mkWorld (P := scripted_platform true) [] 3%nat []
         [UpstreamCall (mkRequest GET "/members/me/cards" [] None);
          TokenAcquired;
          TimedOut 1000;
          UpstreamCall (mkRequest GET "/members/me/cards" [] None);
          TokenAcquired;
          TimedOut 1000;
          UpstreamCall (mkRequest GET "/members/me/cards" [] None);
          TokenAcquired])
      3.
Proof.
  refine (handleRequest_resends_the_request_after_a_second
            (P := scripted_platform true)
            (mkRequest GET "/members/me/cards" [] None)
            [too_many_requests; too_many_requests]
            (mkResponse 200 (JArr [])) 2
            (scripted_world true
               [Rejected too_many_requests; Rejected too_many_requests;
                Fulfilled (mkResponse 200 (JArr []))])
            [] _ _).
  - repeat constructor.
  - repeat split.
Defined.

(** *** Calls made outside [handleRequest] *)

Lemma run_bind {P A B} (p : Prog A) (f : A -> Prog B) : forall w : World P,
  run (bind p f) w
  = match run p w with
    | (Fulfilled v, w1) => run (f v) w1
    | (Rejected error, w1) => (Rejected error, w1)
    end.
Proof.
  induction p as [v|error|req k IH]; intro w; simpl; try reflexivity.
  destruct (axiosInstance req w) as [r w1]. apply IH.
Qed.

(** X7.  [getCardChecklists] and [createChecklist] do not go through
    [handleRequest]: whatever upstream answers, a 429 included, one call is
    made (after a token) and no wait; a rejection reaches the caller as the
    axios error itself, not as an [McpError].  [createChecklist] with an
    empty [cardId] raises [InvalidParams] and calls nothing. *)
Theorem checklist_calls_are_not_retried
  {P} (name cardId : string) (w : World P) :
  (trace (snd (getCardChecklists cardId w))
   = UpstreamCall (getCardChecklists_request cardId)
     :: TokenAcquired :: trace w /\
   forall error,
     fst (upstream P (getCardChecklists_request cardId) (server w))
     = Rejected error ->
     fst (getCardChecklists cardId w) = Rejected error) /\
  (cardId = "" ->
   createChecklist name cardId w = (Rejected (ThrownMcp no_card), w)) /\
  (cardId <> "" ->
   trace (snd (createChecklist name cardId w))
   = UpstreamCall (createChecklist_request name cardId)
     :: TokenAcquired :: trace w /\
   forall error,
     fst (upstream P (createChecklist_request name cardId) (server w))
     = Rejected error ->
     fst (createChecklist name cardId w) = Rejected error).
Proof.
  assert (Hdirect : forall req,
             trace (snd (run (return_data req) w))
             = UpstreamCall req :: TokenAcquired :: trace w /\
             forall error,
               fst (upstream P req (server w)) = Rejected error ->
               fst (run (return_data req) w) = Rejected error).
  { intro req. rewrite run_return_data, axiosInstance_trace.
    destruct (fst (upstream P req (server w))) as [response|error'].
    - split; [reflexivity|discriminate].
    - split; [reflexivity|]. now intros error [= ->]. }
  split; [apply Hdirect|]. split.
  - intros ->. reflexivity.
  - intro Hne. unfold createChecklist.
    assert (E : truthy (Some cardId) = true).
    { simpl. destruct (String.eqb_spec cardId ""); [contradiction|reflexivity]. }
    rewrite E. apply Hdirect.
Qed.

Example getCardChecklists_raises_the_throttling_error :
  getCardChecklists "c1" (scripted_world true [Rejected too_many_requests])
  = (Rejected too_many_requests,
     mkWorld (P := scripted_platform true) [] 1%nat []
       [UpstreamCall (getCardChecklists_request "c1"); TokenAcquired]).
Proof. reflexivity. Qed.

(** *** Checklists by name *)

Section ChecklistFacts.

Variable toLowerCase : string -> string.
Variable card_checklists : Json -> option (list TrelloChecklist).
Variable board_checklists : Json -> list TrelloChecklist.
Variable check_item : Json -> TrelloCheckItem.

Local Abbreviation fetch := (fetch_checklists card_checklists board_checklists).

Lemma run_extends_trace {P T} (p : Prog T) (w : World P) :
  exists evs, trace (snd (run p w)) = (evs ++ trace w)%list.
Proof. destruct (run_extends p w) as (evs & H & _). now exists evs. Qed.

(** X8.  The four checklist methods that search by name or description
    choose where to look in the same way, whatever they do next: with a
    non-empty [cardId] the first call is [GET /cards/{cardId}] with
    [checklists=all], and no board id matters; without it the first call
    is [GET /boards/{id}/checklists] for [boardId], or else for the active
    board; and without any of the three they raise
    [McpError(InvalidParams, 'No board ID or card ID provided and no active
    board set')] and call nothing, the default board not being
    consulted. *)
Theorem checklist_methods_look_on_the_card_first
  {P B} (this : TrelloClient) (cardId boardId' : optstring)
  (next : list TrelloChecklist -> Prog B) (w : World P) :
  (forall card,
      cardId = Some card -> card <> EmptyString ->
      exists evs,
        trace (snd (run (bind (fetch this cardId boardId') next) w))
        = (evs ++ [UpstreamCall
                     (mkRequest GET ("/cards/" ++ card)
                                [("checklists", JStr "all")] None);
                   TokenAcquired]
               ++ trace w)%list) /\
  (truthy cardId = false ->
   forall id,
     first_present [boardId'; boardId (activeConfig this)] = Some id ->
     exists evs,
       trace (snd (run (bind (fetch this cardId boardId') next) w))
       = (evs ++ [UpstreamCall
                    (mkRequest GET ("/boards/" ++ id ++ "/checklists") []
                               None);
                  TokenAcquired]
              ++ trace w)%list) /\
  (truthy cardId = false ->
   first_present [boardId'; boardId (activeConfig this)] = None ->
   run (bind (fetch this cardId boardId') next) w
   = (Rejected (ThrownMcp
        (mkMcpError InvalidParams
           "No board ID or card ID provided and no active board set" None)),
      w)).
Proof.
  assert (Hcall : forall req k,
             exists evs,
               trace (snd (run (bind (Await req k) next) w))
               = (evs ++ [UpstreamCall req; TokenAcquired] ++ trace w)%list).
  { intros req k. cbn [bind run]. rewrite axiosInstance_trace.
    match goal with
    | |- context [run ?p ?w1] =>
        destruct (run_extends_trace p w1) as [evs Hevs]
    end.
    exists evs. rewrite Hevs. reflexivity. }
  unfold fetch_checklists, or_else. split; [|split].
  - intros card -> Hcard.
    assert (E : truthy (Some card) = true).
    { simpl. destruct (String.eqb_spec card EmptyString);
        [contradiction|reflexivity]. }
    rewrite E. apply Hcall.
  - intros -> id Hid. simpl in Hid. cbv zeta.
    destruct (truthy boardId') eqn:E1.
    + subst boardId'. cbv iota. rewrite E1. cbn [negb]. apply Hcall.
    + destruct (truthy (boardId (activeConfig this))) eqn:E2;
        [|discriminate Hid].
      rewrite Hid in *. cbv iota. cbn [negb narrowed]. apply Hcall.
  - intros -> Hnone. simpl in Hnone. cbv zeta.
    destruct (truthy boardId') eqn:E1.
    + subst boardId'. discriminate E1.
    + destruct (truthy (boardId (activeConfig this))) eqn:E2.
      * rewrite Hnone in E2. discriminate E2.
      * cbv iota. try rewrite E2. reflexivity.
Qed.

Example getChecklistItems_looks_on_the_card :
  trace (snd (getChecklistItems lower (fun _ => None) (fun _ => [])
                (constructor (mkConfig "key" "token" None (Some "b1") None))
                "Todo" (Some "c1") (Some "b2")
                (scripted_world true [Fulfilled (mkResponse 200 JNull)])))
  = [UpstreamCall
       (mkRequest GET "/cards/c1" [("checklists", JStr "all")] None);
     TokenAcquired] /\
  trace (snd (getChecklistItems lower (fun _ => None) (fun _ => [])
                (constructor (mkConfig "key" "token" None (Some "b1") None))
                "Todo" None None
                (scripted_world true [Fulfilled (mkResponse 200 JNull)])))
  = [UpstreamCall (mkRequest GET "/boards/b1/checklists" [] None);
     TokenAcquired].
Proof. split; reflexivity. Qed.

Lemma items_named_first name checklists :
  match find (same_name toLowerCase name) checklists with
  | Some targetChecklist =>
      exists rest,
        items_named toLowerCase name checklists
        = (items (convertToCheckList targetChecklist) ++ rest)%list
  | None => items_named toLowerCase name checklists = []
  end.
Proof.
  induction checklists as [|cl cls IH]; simpl; [reflexivity|].
  destruct (same_name toLowerCase name cl) eqn:E.
  - eexists. reflexivity.
  - destruct (find (same_name toLowerCase name) cls); exact IH.
Qed.

(** X9.  [getChecklistByName] and [getChecklistItems] agree: run in the
    same world they make the same call and fail alike; when the first finds
    no checklist of that name the second returns no item, and when it
    finds one, its items are the first items that the second returns (the
    second goes on with the other checklists of that name). *)
Theorem getChecklistByName_is_the_head_of_getChecklistItems
  {P} (this : TrelloClient) (name : string) (cardId boardId' : optstring)
  (w : World P) :
  match getChecklistByName toLowerCase card_checklists board_checklists
          this name cardId boardId' w with
  | (Fulfilled (Some checklist), w') =>
      exists rest,
        getChecklistItems toLowerCase card_checklists board_checklists
          this name cardId boardId' w
        = (Fulfilled (items checklist ++ rest)%list, w')
  | (Fulfilled None, w') =>
      getChecklistItems toLowerCase card_checklists board_checklists
        this name cardId boardId' w
      = (Fulfilled [], w')
  | (Rejected error, w') =>
      getChecklistItems toLowerCase card_checklists board_checklists
        this name cardId boardId' w
      = (Rejected error, w')
  end.
Proof.
  unfold getChecklistByName, getChecklistItems. rewrite !run_bind.
  destruct (run (fetch this cardId boardId') w) as [[checklists|error] w1];
    [|reflexivity].
  pose proof (items_named_first name checklists) as H.
  destruct (find (same_name toLowerCase name) checklists) as [target|]; simpl.
  - destruct H as [rest ->]. now exists rest.
  - now rewrite H.
Qed.



(** X11.  [addChecklistItem], once the checklists are fetched: when none
    has the name, it raises [McpError(InvalidParams)] with the message
    [Checklist "{name}" not found on card] (or [on board], without a
    [cardId]) and makes no further call; otherwise its next call is
    [POST /checklists/{id}/checkItems] with the text as [name], for the
    first checklist of that name, a call that is made once and not
    retried, and the item it returns carries the id of that checklist. *)
Theorem addChecklistItem_posts_to_the_first_checklist_of_that_name
  {P} (this : TrelloClient) (text checkListName : string)
  (cardId boardId' : optstring) (w w1 : World P)
  (checklists : list TrelloChecklist)
  (Hfetch : run (fetch this cardId boardId') w = (Fulfilled checklists, w1)) :
  (find (same_name toLowerCase checkListName) checklists = None ->
   addChecklistItem toLowerCase card_checklists board_checklists check_item
     this text checkListName cardId boardId' w
   = (Rejected (ThrownMcp
        (mkMcpError InvalidParams
           ("Checklist " ++ String "034"%char checkListName
              ++ String "034"%char " not found"
              ++ (if truthy cardId then " on card" else " on board"))
           None)),
      w1)) /\
  (forall target,
      find (same_name toLowerCase checkListName) checklists = Some target ->
      trace (snd (addChecklistItem toLowerCase card_checklists
                    board_checklists check_item
                    this text checkListName cardId boardId' w))
      = UpstreamCall
          (mkRequest POST ("/checklists/" ++ checklist_id target
                             ++ "/checkItems")
                     [] (Some (JObj [("name", JStr text)])))
        :: TokenAcquired :: trace w1 /\
      match fst (upstream P
                   (mkRequest POST ("/checklists/" ++ checklist_id target
                                      ++ "/checkItems")
                              [] (Some (JObj [("name", JStr text)])))
                   (server w1)) with
      | Fulfilled itemResponse =>
          fst (addChecklistItem toLowerCase card_checklists board_checklists
                 check_item this text checkListName cardId boardId' w)
          = Fulfilled (convertToCheckListItem
                         (check_item (response_data itemResponse))
                         (checklist_id target))
      | Rejected error =>
          fst (addChecklistItem toLowerCase card_checklists board_checklists
                 check_item this text checkListName cardId boardId' w)
          = Rejected error
      end).
Proof.
  unfold addChecklistItem. rewrite run_bind, Hfetch. split.
  - intros ->. reflexivity.
  - intros target ->. cbn [run]. rewrite axiosInstance_trace.
    change (addChecklistItem_request (checklist_id target) text)
      with (mkRequest POST ("/checklists/" ++ checklist_id target
                              ++ "/checkItems")
                      [] (Some (JObj [("name", JStr text)]))).
    destruct (fst (upstream P
                     (mkRequest POST ("/checklists/" ++ checklist_id target
                                        ++ "/checkItems")
                                [] (Some (JObj [("name", JStr text)])))
                     (server w1))); split; reflexivity.
Qed.

End ChecklistFacts.

Lemma addChecklistItem_posts_to_the_first_checklist_of_that_name_witness :
  trace (snd (addChecklistItem lower
                (fun _ => Some [checklist_named "cl1" "Todo" ["a"];
                                checklist_named "cl2" "TODO" []])
                (fun _ => [])
                (fun _ => mkCheckItem "i9" "write tests" "incomplete")
                (constructor (mkConfig "key" "token" None None None))
                "write tests" "todo" (Some "c1") None
                (scripted_world true [Fulfilled (mkResponse 200 JNull);
                                      Fulfilled (mkResponse 200 JNull)])))
  = [UpstreamCall
       (mkRequest POST "/checklists/cl1/checkItems" []
                  (Some (JObj [("name", JStr "write tests")])));
     TokenAcquired;
     UpstreamCall
       (mkRequest GET "/cards/c1" [("checklists", JStr "all")] None);
     TokenAcquired].
Proof.
  exact (proj1 (proj2
    (addChecklistItem_posts_to_the_first_checklist_of_that_name lower
       (fun _ => Some [checklist_named "cl1" "Todo" ["a"];
                       checklist_named "cl2" "TODO" []])
       (fun _ => []) (fun _ => mkCheckItem "i9" "write tests" "incomplete")
       (constructor (mkConfig "key" "token" None None None))
       "write tests" "todo" (Some "c1") None
       (scripted_world true [Fulfilled (mkResponse 200 JNull);
                             Fulfilled (mkResponse 200 JNull)])
       (mkWorld (P := scripted_platform true)
          [Fulfilled (mkResponse 200 JNull)] 1%nat []
          [UpstreamCall
             (mkRequest GET "/cards/c1" [("checklists", JStr "all")] None);
           TokenAcquired])
       [checklist_named "cl1" "Todo" ["a"]; checklist_named "cl2" "TODO" []]
       eq_refl)
    (checklist_named "cl1" "Todo" ["a"]) eq_refl)).
Defined.

Example addChecklistItem_does_not_find_the_checklist :
  addChecklistItem lower
    (fun _ => Some [checklist_named "cl1" "Todo" ["a"];
                    checklist_named "cl2" "Done" []])
    (fun _ => []) (fun _ => mkCheckItem "i9" "write tests" "incomplete")
    (constructor (mkConfig "key" "token" None None None))
    "write tests" "Doing" (Some "c1") None
    (scripted_world true [Fulfilled (mkResponse 200 JNull)])
  = (Rejected (ThrownMcp
       (mkMcpError InvalidParams
          ("Checklist " ++ String "034"%char "Doing"
             ++ String "034"%char " not found on card")
          None)),
     mkWorld (P := scripted_platform true) [] 1%nat []
       [UpstreamCall
          (mkRequest GET "/cards/c1" [("checklists", JStr "all")] None);
        TokenAcquired]).
Proof. reflexivity. Qed.

Example addChecklistItem_finds_the_name_in_any_case :
  fst (addChecklistItem lower
         (fun _ => Some [checklist_named "cl1" "Todo" ["a"];
                         checklist_named "cl2" "TODO" []])
         (fun _ => []) (fun _ => mkCheckItem "i9" "write tests" "incomplete")
         (constructor (mkConfig "key" "token" None None None))
         "write tests" "todo" (Some "c1") None
         (scripted_world true [Fulfilled (mkResponse 200 JNull);
                               Fulfilled (mkResponse 200 JNull)]))
  = Fulfilled (mkCheckListItem "i9" "write tests" false "cl1").
Proof. reflexivity. Qed.

(** ** [moveCard] *)

Lemma moveCard_request_first_present cardId listId a b :
  moveCard_request cardId listId (or_else a b)
  = mkRequest PUT ("/cards/" ++ cardId) []
      (Some (JObj (("idList", JStr listId)
                   :: optional_field "idBoard" (first_present [a; b])))).
Proof.
  unfold moveCard_request, or_else. cbn [first_present].
  destruct (truthy a) eqn:Ea.
  - rewrite Ea. destruct a; [reflexivity|discriminate Ea].
  - destruct (truthy b) eqn:Eb; [|reflexivity].
    destruct b; [reflexivity|discriminate Eb].
Qed.

(** X12.  [moveCard] always makes its call, a [PUT] on the card that sets
    [idList]: it never asks for a board.  The body names a board,
    [idBoard], exactly when the [boardId] argument or else the default
    board of the client is present, and then it is that one; the active
    board plays no part (the board methods of C8 read it, [moveCard] does
    not). *)
Theorem moveCard_names_a_board_only_when_one_is_present
  {P} (fuel : nat) (this : TrelloClient) (boardId' : optstring)
  (cardId listId : string) (w : World P) :
  (exists evs,
      trace (world (moveCard (S fuel) this boardId' cardId listId w))
      = (evs ++
         [UpstreamCall
            (mkRequest PUT ("/cards/" ++ cardId) []
               (Some (JObj (("idList", JStr listId)
                            :: optional_field "idBoard"
                                 (first_present
                                    [boardId'; this_defaultBoardId this])))));
          TokenAcquired] ++ trace w)%list) /\
  (forall active,
      moveCard fuel (mkClient (config this) (this_defaultBoardId this) active)
               boardId' cardId listId w
      = moveCard fuel this boardId' cardId listId w).
Proof.
  split.
  - unfold moveCard. cbv zeta. rewrite moveCard_request_first_present.
    apply handle_return_data_first_call.
  - intro active. reflexivity.
Qed.

Example moveCard_without_a_board :
  trace (world (moveCard 1 (constructor (mkConfig "key" "token" None
                                           (Some "active") None))
                  None "c1" "l2"
                  (scripted_world true [Fulfilled (mkResponse 200 JNull)])))
  = [UpstreamCall
       (mkRequest PUT "/cards/c1" [] (Some (JObj [("idList", JStr "l2")])));
     TokenAcquired].
Proof. reflexivity. Qed.

(** ** Comments and labels *)

Section CommentFacts.

Variable encodeURIComponent : string -> string.

(** X13.  What the deleting and updating methods answer, when the call is
    not throttled.  [deleteCommentFromCard] and [updateCommentOnCard]
    answer whether the status was 200, so that a call that upstream
    fulfilled with another status (204, say) is answered [false] and is
    neither raised nor repeated; [deleteLabel] answers [true] for every
    fulfilled call.  A rejection that is not a 429 is raised as the
    [McpError] of [handleRequest]. *)
Theorem deletions_answer_whether_the_status_was_200
  {P} (fuel : nat) (commentId text labelId : string) (w : World P) :
  match fst (upstream P (deleteCommentFromCard_request commentId) (server w))
  with
  | Fulfilled response =>
      settled (deleteCommentFromCard (S fuel) commentId w)
      = Some (Fulfilled (status response =? 200)) /\
      invocations (deleteCommentFromCard (S fuel) commentId w) = 1%nat
  | Rejected error =>
      forall e, catch_clause error = Some e ->
                settled (deleteCommentFromCard (S fuel) commentId w)
                = Some (Rejected (ThrownMcp e))
  end /\
  match fst (upstream P
               (updateCommentOnCard_request encodeURIComponent commentId text)
               (server w))
  with
  | Fulfilled response =>
      settled (updateCommentOnCard encodeURIComponent (S fuel) commentId text w)
      = Some (Fulfilled (status response =? 200)) /\
      invocations
        (updateCommentOnCard encodeURIComponent (S fuel) commentId text w)
      = 1%nat
  | Rejected error =>
      forall e, catch_clause error = Some e ->
                settled (updateCommentOnCard encodeURIComponent (S fuel)
                           commentId text w)
                = Some (Rejected (ThrownMcp e))
  end /\
  match fst (upstream P (deleteLabel_request labelId) (server w)) with
  | Fulfilled response =>
      settled (deleteLabel (S fuel) labelId w) = Some (Fulfilled true) /\
      invocations (deleteLabel (S fuel) labelId w) = 1%nat
  | Rejected error =>
      forall e, catch_clause error = Some e ->
                settled (deleteLabel (S fuel) labelId w)
                = Some (Rejected (ThrownMcp e))
  end.
Proof.
  unfold deleteCommentFromCard, updateCommentOnCard, deleteLabel.
  rewrite !handle_S. cbn [run]. rewrite !axiosInstance_trace.
  split; [|split].
  - destruct (fst (upstream P (deleteCommentFromCard_request commentId)
                     (server w))) as [response|error].
    + split; reflexivity.
    + intros e He. cbn [run]. rewrite He. reflexivity.
  - destruct (fst (upstream P
                     (updateCommentOnCard_request encodeURIComponent
                        commentId text) (server w))) as [response|error].
    + destruct (status response =? 200); split; reflexivity.
    + intros e He. cbn [run]. rewrite He. reflexivity.
  - destruct (fst (upstream P (deleteLabel_request labelId) (server w)))
      as [response|error].
    + split; reflexivity.
    + intros e He. cbn [run]. rewrite He. reflexivity.
Qed.

End CommentFacts.

Example deleteCommentFromCard_answers_false_on_204 :
  settled (deleteCommentFromCard 1 "a1"
             (scripted_world true [Fulfilled (mkResponse 204 JNull)]))
  = Some (Fulfilled false) /\
  settled (deleteLabel 1 "l1"
             (scripted_world true [Fulfilled (mkResponse 204 JNull)]))
  = Some (Fulfilled true).
Proof. split; reflexivity. Qed.

(** ** The percentage of a checklist at its ends *)

(** A double divided by itself is 1. *)
Lemma SFdiv_self m e :
  Zpos (digits2_pos m) = 53 -> -52 <= e <= 0 ->
  SFdiv prec emax (S754_finite false m e) (S754_finite false m e)
  = Number_of_Z 1.
Proof.
  intros Hd He. unfold SFdiv, SFdiv_core_binary. cbn [Zdigits2 xorb].
  rewrite Hd.
  replace (Z.min (fexp prec emax (53 + e - (53 + e))) (e - e)) with (-53)
    by (unfold fexp, emin, prec, emax; lia).
  replace (e - e - -53) with 53 by lia.
  cbv iota. rewrite Z.shiftl_mul_pow2 by lia.
  pose proof (Z_div_mod (Zpos m * 2 ^ 53) (Zpos m) ltac:(lia)) as Hdm.
  destruct (Z.div_eucl (Zpos m * 2 ^ 53) (Zpos m)) as [q r].
  destruct Hdm as [Hq Hr].
  assert (Eq : q = 2 ^ 53) by nia.
  assert (Er : r = 0) by nia.
  subst q r. unfold new_location.
  destruct (Z.even (Zpos m)); vm_compute; reflexivity.
Qed.

Lemma filter_all {A} (f : A -> bool) (l : list A) :
  Forall (fun x => f x = true) l -> filter f l = l.
Proof.
  induction 1 as [|x l Hx _ IH]; simpl; [reflexivity|].
  now rewrite Hx, IH.
Qed.

Lemma filter_none {A} (f : A -> bool) (l : list A) :
  Forall (fun x => f x = false) l -> filter f l = [].
Proof.
  induction 1 as [|x l Hx _ IH]; simpl; [reflexivity|].
  now rewrite Hx.
Qed.

(** X14.  The ends of the scale are exact: a checklist (of fewer than 2^32
    items) all of whose items are complete, and that has one at least, gets
    [percentComplete] 100, and one none of whose items is complete gets
    0. *)
Theorem convertToCheckList_all_or_none_complete
  (trelloChecklist : TrelloChecklist)
  (Hlength : Z.of_nat (List.length (checkItems trelloChecklist)) < 2 ^ 32) :
  (checkItems trelloChecklist <> [] ->
   Forall (fun item => state item = "complete") (checkItems trelloChecklist) ->
   percentComplete (convertToCheckList trelloChecklist) = Number_of_Z 100) /\
  (Forall (fun item => state item <> "complete") (checkItems trelloChecklist) ->
   percentComplete (convertToCheckList trelloChecklist) = Number_of_Z 0).
Proof.
  assert (H53 : Z.of_nat (List.length (checkItems trelloChecklist)) < 2 ^ 53).
  { change (2 ^ 32) with 4294967296 in Hlength.
    change (2 ^ 53) with 9007199254740992. lia. }
  unfold convertToCheckList. cbn [percentComplete]. split.
  - intros Hne Hall. rewrite filter_all.
    2:{ eapply Forall_impl; [|exact Hall].
        intros item H. now apply String.eqb_eq. }
    assert (Hpos : 0 < Z.of_nat (List.length (checkItems trelloChecklist))).
    { destruct (checkItems trelloChecklist); [contradiction|simpl; lia]. }
    rewrite greater_zero by (split; assumption).
    unfold Number_of_nat.
    destruct (Z.of_nat (List.length (checkItems trelloChecklist)))
      as [|p|p]; try lia.
    destruct (Number_of_pos p H53) as (m & e & -> & He & _ & Hd).
    rewrite SFdiv_self by assumption. vm_compute. reflexivity.
  - intro Hnone. rewrite filter_none.
    2:{ eapply Forall_impl; [|exact Hnone].
        intros item H. now apply String.eqb_neq. }
    cbn [List.length]. unfold greater, Number_of_nat.
    destruct (Z.of_nat (List.length (checkItems trelloChecklist)))
      as [|p|p] eqn:E; try lia; [reflexivity|].
    destruct (Number_of_pos p H53) as (m & e & -> & _). reflexivity.
Qed.

Lemma convertToCheckList_all_or_none_complete_witness :
  percentComplete (convertToCheckList (checklist_of 3 3)) = Number_of_Z 100 /\
  percentComplete (convertToCheckList (checklist_of 0 3)) = Number_of_Z 0.
Proof.
  split.
  - apply (convertToCheckList_all_or_none_complete (checklist_of 3 3));
      [vm_compute; reflexivity|discriminate|].
    repeat constructor.
  - apply (convertToCheckList_all_or_none_complete (checklist_of 0 3));
      [vm_compute; reflexivity|].
    repeat constructor; discriminate.
Defined.

(** The converse fails: 100 does not say that every item is complete. *)
Example convertToCheckList_199_of_200 :
  percentComplete (convertToCheckList (checklist_of 199 200))
  = Number_of_Z 100.
Proof. vm_compute. reflexivity. Qed.
